(** * whisperstream: chunk-windowing and boundary-reconciliation engine

    Shallow embedding of [whisperstream/stream.py], [whisperstream/trim.py]
    and [whisperstream/languages.py].

    Modelling conventions:
    - times in seconds (Python [float]/[int]) are rationals [Q]; the code only
      adds, subtracts, compares and takes [min] of them;
    - Python [str] values are ASCII [string]s;
    - the external collaborators (ffmpeg, the remote transcription service)
      are oracles passed as arguments: the engine is a function of what they
      answer;
    - Python exceptions are the constructors of [PyErr]; a fallible
      computation returns [PyResult]. *)

From Stdlib Require Import List String Ascii QArith Lqa Lia Bool Sorting.Sorted.
Import ListNotations.
Open Scope Q_scope.

(** ** Python values *)

Inductive PyErr :=
| UnsupportedLanguageError
| ValueError
| IndexError
| KeyError
| NoAudioStreamsError
| RuntimeError
| AssertionError
| AudioTrimError
| UnicodeDecodeError
| StopAsyncIteration.

Inductive PyResult (A : Type) :=
| Ok (a : A)
| Err (e : PyErr).
Arguments Ok {A} a.
Arguments Err {A} e.

(** Python [a < b] and [a <= b] on numbers. *)
Definition Qltb (a b : Q) : bool := negb (Qle_bool b a).
Definition Qleb (a b : Q) : bool := Qle_bool a b.

(** Python [min(a, b)]: the first argument unless the second is smaller. *)
Definition py_min (a b : Q) : Q := if Qltb b a then b else a.

(** ** Python string operations on ASCII text *)

Definition code (c : ascii) : nat := nat_of_ascii c.

(** [str.isspace] on one ASCII character: \t \n \v \f \r, \x1c-\x1f, space. *)
Definition is_py_space (c : ascii) : bool :=
  let n := code c in
  ((Nat.leb 9 n) && (Nat.leb n 13)) || ((Nat.leb 28 n) && (Nat.leb n 32)).

(** [str.isupper] on one ASCII character. *)
Definition is_upper (c : ascii) : bool :=
  let n := code c in (Nat.leb 65 n) && (Nat.leb n 90).

Definition is_lower (c : ascii) : bool :=
  let n := code c in (Nat.leb 97 n) && (Nat.leb n 122).

(** [str.upper] / [str.lower] on one ASCII character. *)
Definition char_upper (c : ascii) : ascii :=
  if is_lower c then ascii_of_nat (code c - 32) else c.

Definition char_lower (c : ascii) : ascii :=
  if is_upper c then ascii_of_nat (code c + 32) else c.

Fixpoint str_map (f : ascii -> ascii) (s : string) : string :=
  match s with
  | EmptyString => EmptyString
  | String c r => String (f c) (str_map f r)
  end.

Fixpoint str_any (p : ascii -> bool) (s : string) : bool :=
  match s with
  | EmptyString => false
  | String c r => p c || str_any p r
  end.

(** [c in s] for a one-character string [c]. *)
Definition str_contains_char (s : string) (c : ascii) : bool :=
  str_any (fun d => Ascii.eqb d c) s.

(** [str.lstrip()] *)
Fixpoint lstrip (s : string) : string :=
  match s with
  | EmptyString => EmptyString
  | String c r => if is_py_space c then lstrip r else s
  end.

(** [str.capitalize()]: first character upper-cased, the rest lower-cased. *)
Definition py_capitalize (s : string) : string :=
  match s with
  | EmptyString => EmptyString
  | String c r => String (char_upper c) (str_map char_lower r)
  end.

(** [s[-k:]] *)
Definition py_suffix (k : nat) (s : string) : string :=
  substring (String.length s - k) k s.

(** [is_punctuation_present] *)
Definition is_punctuation_present (text : string) : bool :=
  if negb (str_any is_upper text) then false
  else if negb (str_any (str_contains_char "!(),.:;?") text) then false
  else true.

(** [_capitalize], the closure of [atranscribe_streaming]. *)
Definition capitalize_first (text : string) : string :=
  let text := lstrip text in
  match text with
  | EmptyString => EmptyString
  | String c r => String (char_upper c) r
  end.

(** ** Language table ([languages.py]) *)

Definition _WHISPER_LANGUAGES : list (string * string) := [
  ("af", "Afrikaans");
  ("ar", "Arabic");
  ("hy", "Armenian");
  ("az", "Azerbaijani");
  ("be", "Belarusian");
  ("bs", "Bosnian");
  ("bg", "Bulgarian");
  ("ca", "Catalan");
  ("zh", "Chinese");
  ("hr", "Croatian");
  ("cs", "Czech");
  ("da", "Danish");
  ("nl", "Dutch");
  ("en", "English");
  ("et", "Estonian");
  ("fi", "Finnish");
  ("fr", "French");
  ("gl", "Galician");
  ("de", "German");
  ("he", "Hebrew");
  ("hi", "Hindi");
  ("hu", "Hungarian");
  ("is", "Icelandic");
  ("id", "Indonesian");
  ("it", "Italian");
  ("ja", "Japanese");
  ("kn", "Kannada");
  ("kk", "Kazakh");
  ("ko", "Korean");
  ("lv", "Latvian");
  ("lt", "Lithuanian");
  ("mk", "Macedonian");
  ("mr", "Marathi");
  ("mi", "Maori");
  ("no", "Norwegian");
  ("fa", "Persian");
  ("pl", "Polish");
  ("pt", "Portuguese");
  ("ro", "Romanian");
  ("ru", "Russian");
  ("sr", "Serbian");
  ("sk", "Slovak");
  ("sl", "Slovenian");
  ("es", "Spanish");
  ("sv", "Swedish");
  ("tl", "Tagalog");
  ("ta", "Tamil");
  ("th", "Thai");
  ("tr", "Turkish");
  ("uk", "Ukrainian");
  ("ur", "Urdu");
  ("vi", "Vietnamese");
  ("el", "Greek");
  ("ms", "Malay");
  ("ne", "Nepali");
  ("sw", "Swahili");
  ("cy", "Welsh")
]%string.

(** [SUPPORTED_LANGUAGES]: a [Lang] is identified by its ISO 639-1 code. *)
Definition SUPPORTED_LANGUAGES : list string := map fst _WHISPER_LANGUAGES.

Definition is_supported (lang : string) : bool :=
  existsb (String.eqb lang) SUPPORTED_LANGUAGES.

(** [_NAME_TO_LANG[name]]: the dict comprehension keeps the last binding of
    a key, i.e. the first one met scanning the table backwards. *)
Definition name_to_lang (name : string) : option string :=
  option_map fst
    (find (fun '(_, n) => String.eqb n name) (rev _WHISPER_LANGUAGES)).

(** [get_lang_from_name] *)
Definition get_lang_from_name (name : string) : PyResult string :=
  if String.eqb name "" then Err UnsupportedLanguageError
  else match name_to_lang (py_capitalize name) with
       | Some l => Ok l
       | None => Err UnsupportedLanguageError
       end.

(** [_LANG_TO_NAME[lang]]: the dict comprehension keeps the last binding of
    a code; a missing key raises [KeyError]. *)
Definition get_lang_name (lang : string) : PyResult string :=
  match find (fun '(l, _) => String.eqb l lang) (rev _WHISPER_LANGUAGES) with
  | Some (_, name) => Ok name
  | None => Err KeyError
  end.

(** [PUNCTUATION_PROMPTS_BY_LANG], keyed by ISO 639-1 code; the priming
    phrases are kept as their UTF-8 bytes. *)
Definition PUNCTUATION_PROMPTS_BY_LANG : list (string * string) := [
  ("af", "Wel, wat wou ek sê? Kom ons begin.");
  ("ar", "حسنًا ، ماذا أردت أن أقول؟ هيا بنا نبدأ.");
  ("hy", "Լավ, ի՞նչ էի ցանկանում ասել. Եկեք սկսենք:");
  ("az", "Yaxşı, nə demək istədim? Başlayaq.");
  ("be", "Ну, што я хацеў сказаць? Давайце пачнем.");
  ("bs", "Pa, šta sam htio reći? Hajde da počnemo.");
  ("bg", "Добре, какво исках да кажа? Нека започнем.");
  ("ca", "Bé, què volia dir? Comencem.");
  ("zh", "好吧，我想说什么？我们开始吧。");
  ("hr", "Pa, što sam htio reći? Hajde da počnemo.");
  ("cs", "No, co jsem chtěl říct? Začněme.");
  ("da", "Nå, hvad ville jeg sige? Lad os begynde.");
  ("nl", "Nou, wat wilde ik zeggen? Laten we beginnen.");
  ("en", "Well, what did I want to say? Let's start.");
  ("et", "Noh, mida ma öelda tahtsin? Alustame.");
  ("fi", "No, mitä halusin sanoa? Aloittakaamme.");
  ("fr", "Eh bien, que voulais-je dire? Commençons.");
  ("gl", "Beno, que quería dicir? Comecemos.");
  ("de", "Nun, was wollte ich sagen? Lassen Sie uns anfangen.");
  ("he", "ובכן, מה רציתי להגיד? בוא נתחיל.");
  ("hi", "अच्छा, मैं क्या कहना चाहता था? चलो शुरू करते हैं।");
  ("hu", "Nos, mit akartam mondani? Kezdjük.");
  ("is", "Já, hvað vildi ég segja? Byrjumst.");
  ("id", "Nah, apa yang ingin saya katakan? Mari kita mulai.");
  ("it", "Bene, cosa volevo dire? Iniziamo.'");
  ("ja", "まあ、何を言いたかったのか？始めましょう。");
  ("kn", "ಹೌದು, ನಾನು ಏನು ಹೇಳಲು ಬಯಸಿದೆನು? ಪ್ರಾರಂಭಿಸೋಣ.");
  ("kk", "Жақсы, мен не деймекші едім? Бастау керек.");
  ("ko", "그래, 내가 뭐라고 하고 싶었지? 시작합시다.");
  ("lv", "Nu, ko es gribēju teikt? Sāksim.");
  ("lt", "Na, ką norėjau pasakyti? Pradėkime.");
  ("mk", "Добро, што сакав да кажам? Ајде да започнеме.");
  ("mr", "चांगले, मला काय म्हणायचे होते? चालू करूया.");
  ("mi", "Na, ka aha ahau e korero ana? Ka tiimata tatou.");
  ("no", "Vel, hva ville jeg si? La oss starte.");
  ("fa", "خب ، چه می خواستم بگویم؟ بیایید شروع کنیم.");
  ("pl", "No dobrze, co chciałem powiedzieć? Zacznijmy.");
  ("pt", "Bem, o que eu queria dizer? Vamos começar.");
  ("ro", "Ei bine, ce voiam sa spun? Hai sa incepem.");
  ("ru", "Ну, что я хотел сказать? Давайте начнем.");
  ("sr", "Па, шта сам хтео рећи? Хајде да почнемо.");
  ("sk", "No, čo som chcel povedať? Poďme začať.");
  ("sl", "No, kaj sem hotel reči? Začnimo.");
  ("es", "Bueno, ¿qué quería decir? Empecemos.");
  ("sv", "Nåväl, vad ville jag säga? Låt oss börja.");
  ("tl", "Abah, ano ba ang gusto kong sabihin? Simulan na natin.");
  ("ta", "நலமாக, நான் என்ன சொல்ல வேண்டியதாக இருந்தது? ஆரம்பிப்போம்.");
  ("th", "เยี่ยม, ฉันต้องการจะพูดอะไร? เริ่มเถอะ");
  ("tr", "Peki, ne demek istedim? Hadi başlayalım.");
  ("uk", "Ну, що я хотів сказати? Давайте почнемо.");
  ("ur", "اچھا ، میں کیا کہنا چاہتا تھا؟ آئیے شروع کریں۔");
  ("vi", "Vậy, tôi muốn nói gì? Hãy bắt đầu.");
  ("el", "Λοιπόν, τι ήθελα να πω; Ας ξεκινήσουμε.");
  ("ms", "Baiklah, apa yang saya mahu katakan? Mari kita mula.");
  ("ne", "हुन्न, म भन्न चाहन्थें? सुरु गरौं।");
  ("sw", "Vizuri, nataka kusema nini? Hebu tuanze.");
  ("cy", "Wel, beth oeddwn i am ei ddweud? Gadewch inni ddechrau.")
]%string.

(** [get_punctuation_prompt_for_lang]: [PUNCTUATION_PROMPTS_BY_LANG[lang.pt1]]. *)
Definition get_punctuation_prompt_for_lang (lang : string) : PyResult string :=
  match find (fun '(l, _) => String.eqb l lang) (rev PUNCTUATION_PROMPTS_BY_LANG) with
  | Some (_, prompt) => Ok prompt
  | None => Err KeyError
  end.

(** ** Recognition results and requests *)

(** A segment of a verbose_json transcription. *)
Record Segment := mkSegment {
  seg_seek : Q;
  seg_start : Q;
  seg_end : Q;
  seg_text : string
}.

(** [openai.types.audio.Transcription] with its segments. *)
Record Transcription := mkTranscription {
  r_language : string;
  r_text : string;
  r_segments : list Segment
}.

(** The arguments of one [_transcribe] call: the window, and the
    [prompt] and [language] entries of [kwargs] (absent = [None]). *)
Record Request := mkRequest {
  rq_start : Q;
  rq_end : Q;
  rq_prompt : option string;
  rq_language : option string
}.

(** The observable effects of the engine, in order: probing the duration,
    one [_transcribe] call (media slicing then the remote call), one [yield]. *)
Inductive Event :=
| EvProbe
| EvTranscribe (req : Request)
| EvYield (r : Transcription).

(** How a (possibly partially consumed) run of the generator ends. *)
Inductive Outcome :=
| Finished
| Failed (e : PyErr)
| Suspended.

(** The arguments of [atranscribe_streaming] that the claims are about:
    [language], [force_punctuation] and the caller's [kwargs["prompt"]]. *)
Record Config := mkConfig {
  cfg_language : option string;
  cfg_force_punctuation : bool;
  cfg_prompt : option string
    (* [kwargs["prompt"]]: absent, or a string; an explicit [None] is not
       represented *)
}.

(** The local variables of [atranscribe_streaming] at the top of [while True]. *)
Record LoopState := mkLoopState {
  ls_start : Q;
  ls_end : Q;
  ls_chunk_index : nat;
  ls_prompt : option string;     (* kwargs["prompt"] *)
  ls_language : option string;   (* kwargs["language"] *)
  ls_calls : nat;                (* number of [_transcribe] calls so far *)
  ls_r : Transcription
}.

(** [''.join(x.text for x in segments)] *)
Definition join_texts (segs : list Segment) : string :=
  fold_right (fun x acc => (seg_text x ++ acc)%string) EmptyString segs.

(** [kwargs.get("prompt", "")] *)
Definition prompt_or_empty (p : option string) : string :=
  match p with Some s => s | None => EmptyString end.

(** [segments[-1]] *)
Definition last_opt {A} (l : list A) : PyResult A :=
  match rev l with
  | x :: _ => Ok x
  | [] => Err IndexError
  end.

(** The rebasing loop: [seek], [start], [end] shifted by the window start. *)
Definition rebase_segment (start : Q) (s : Segment) : Segment :=
  {| seg_seek := seg_seek s + start;
     seg_start := seg_start s + start;
     seg_end := seg_end s + start;
     seg_text := seg_text s |}.

Definition rebase (start : Q) (r : Transcription) : Transcription :=
  {| r_language := r_language r;
     r_text := r_text r;
     r_segments := map (rebase_segment start) (r_segments r) |}.

(** The [for _i in range(budget)] loop with its [else] branch, over
    [r.segments]: drop the last segment, stop as soon as the new last one
    ends before [end_]; when the budget runs out, the [else] branch logs
    [r.segments[-1]] and the loop is left. *)
Fixpoint skip_trailing (budget : nat) (end_ : Q) (segs : list Segment)
  : PyResult (list Segment) :=
  match budget with
  | O =>
      match last_opt segs with
      | Ok _ => Ok segs
      | Err e => Err e
      end
  | S b =>
      let segs := removelast segs in
      match last_opt segs with
      | Err e => Err e
      | Ok l => if Qltb (seg_end l) end_ then Ok segs
                else skip_trailing b end_ segs
      end
  end.

(** The boundary-trim decision of a non-terminal window: the new cursor
    [start] and the result as yielded. *)
Definition boundary_trim (end_ : Q) (r : Transcription)
  : PyResult (Q * Transcription) :=
  match r_segments r with
  | [] => Ok (end_, r)
  | [_] => Ok (end_, r)
  | segs =>
      let max_segments_to_skip := Nat.max 1 (List.length segs - 1) in
      match skip_trailing max_segments_to_skip end_ segs with
      | Err e => Err e
      | Ok segs' =>
          match last_opt segs' with
          | Err e => Err e
          | Ok l =>
              Ok (py_min (seg_end l) end_,
                  {| r_language := r_language r;
                     r_text := join_texts segs';
                     r_segments := segs' |})
          end
      end
  end.

(** One pass of [while True]. *)
Inductive Step :=
| StepDone (r : Transcription)
| StepFail (e : PyErr)
| StepNext (y : Transcription) (req : Request) (st : LoopState).

(** ** Window planning ([default_chunk_size_fn] and [_get_end]) *)

Definition OPENAI_WHISPER_MODEL_CHUNK_SIZE_SECONDS : Q := 30.

Definition default_chunk_size_fn (index : nat) : Q :=
  let factor := if Nat.ltb index 2 then 1%nat else index in
  OPENAI_WHISPER_MODEL_CHUNK_SIZE_SECONDS * inject_Z (Z.of_nat factor).

Section Engine.

(** The chunk policy passed by the caller, and the probed duration. *)
Variable chunk_size_fn : nat -> Q.
Variable audio_duration : Q.

(** [_get_end], the closure of [atranscribe_streaming]. *)
Definition get_end (start : Q) (chunk_index : nat) : Q :=
  let chunk_size := chunk_size_fn chunk_index in
  let end_ := start + chunk_size in
  if Qltb (audio_duration - end_) chunk_size then audio_duration else end_.

(** The remote transcription service, as seen through [atranscribe_fn]:
    the answer to the [n]-th [_transcribe] call of the stream. *)
Variable atranscribe : nat -> Request -> Transcription.

(** [get_punctuation_prompt_for_lang]: the priming phrase of a language
    (the [PUNCTUATION_PROMPTS_BY_LANG] table, whose texts are not ASCII). *)
Variable get_punctuation_prompt_for_lang : string -> string.

(** One pass of the core loop of [atranscribe_streaming]: rebase, yield
    everything at the end of the audio, else trim, extend the prompt, yield,
    compute the next window and issue its request. *)
Definition core_step (st : LoopState) : Step :=
  let start := ls_start st in
  let end_ := ls_end st in
  let r := rebase start (ls_r st) in
  if Qleb audio_duration end_ then StepDone r
  else
    match boundary_trim end_ r with
    | Err e => StepFail e
    | Ok (start', r') =>
        let prompt := Some (prompt_or_empty (ls_prompt st) ++ r_text r')%string in
        let chunk_index := S (ls_chunk_index st) in
        let end' := get_end start' chunk_index in
        let req := mkRequest start' end' prompt (ls_language st) in
        StepNext r' req
          (mkLoopState start' end' chunk_index prompt (ls_language st)
             (S (ls_calls st)) (atranscribe (ls_calls st) req))
    end.

(** The [else] branch of punctuation forcing: [r.text] and
    [r.segments[0].text] pass through [_capitalize]. *)
Definition capitalize_result (r : Transcription) : Transcription :=
  {| r_language := r_language r;
     r_text := capitalize_first (r_text r);
     r_segments :=
       match r_segments r with
       | [] => []
       | s :: rest =>
           {| seg_seek := seg_seek s; seg_start := seg_start s;
              seg_end := seg_end s;
              seg_text := capitalize_first (seg_text s) |} :: rest
       end |}.

(** The core loop, run until the consumer stops pulling after [fuel]
    further requests. *)
Fixpoint run_loop (fuel : nat) (st : LoopState) : list Event * Outcome :=
  match core_step st with
  | StepDone r => ([EvYield r], Finished)
  | StepFail e => ([], Failed e)
  | StepNext y req st' =>
      match fuel with
      | O => ([EvYield y], Suspended)
      | S f =>
          let '(ev, o) := run_loop f st' in
          (EvYield y :: EvTranscribe req :: ev, o)
      end
  end.

(** The part of [atranscribe_streaming] before [while True]: validation,
    probing, first request, language detection, punctuation forcing. *)
Definition engine_start (cfg : Config) : list Event * PyResult LoopState :=
  match match cfg_language cfg with
        | None => Ok None
        | Some l => if negb (is_supported l) then Err UnsupportedLanguageError
                    else Ok (Some l)
        end with
  | Err e => ([], Err e)
  | Ok kw_language =>
  if cfg_force_punctuation cfg
     && match cfg_prompt cfg with Some _ => true | None => false end
  then ([], Err ValueError)
  else
  let start := 0 in
  let chunk_index := O in
  let end_ := get_end start chunk_index in
  let prompt :=
    match cfg_force_punctuation cfg, cfg_language cfg with
    | true, Some l => Some (get_punctuation_prompt_for_lang l)
    | _, _ => cfg_prompt cfg
    end in
  let req := mkRequest start end_ prompt kw_language in
  let r := atranscribe O req in
  let ev := [EvProbe; EvTranscribe req] in
  match match cfg_language cfg with
        | Some l => Ok l
        | None => get_lang_from_name (r_language r)
        end with
  | Err e => (ev, Err e)
  | Ok language =>
      let kw_language := Some language in
      if cfg_force_punctuation cfg then
        if negb (is_punctuation_present (r_text r)) then
          let prompt := Some (get_punctuation_prompt_for_lang language ++ " ")%string in
          let req' := mkRequest start end_ prompt kw_language in
          (ev ++ [EvTranscribe req'],
           Ok (mkLoopState start end_ chunk_index prompt kw_language 2
                 (atranscribe 1 req')))
        else
          let r := capitalize_result r in
          (ev, Ok (mkLoopState start end_ chunk_index prompt kw_language 1 r))
      else (ev, Ok (mkLoopState start end_ chunk_index prompt kw_language 1 r))
  end
  end.

(** [atranscribe_streaming], consumed for [fuel] requests after the first. *)
Definition atranscribe_streaming (cfg : Config) (fuel : nat)
  : list Event * Outcome :=
  let '(ev0, pre) := engine_start cfg in
  match pre with
  | Err e => (ev0, Failed e)
  | Ok st => let '(ev, o) := run_loop fuel st in (ev0 ++ ev, o)
  end.

End Engine.

(** The results yielded by a run, in order. *)
Definition yields (ev : list Event) : list Transcription :=
  flat_map (fun e => match e with EvYield r => [r] | _ => [] end) ev.

(** The segments yielded by a run, in order. *)
Definition emitted_segments (ev : list Event) : list Segment :=
  flat_map r_segments (yields ev).

(** [first_elem.segments[0]["text"] = ...lstrip()] *)
Definition strip_first_segment (r : Transcription) : Transcription :=
  {| r_language := r_language r;
     r_text := r_text r;
     r_segments :=
       match r_segments r with
       | [] => []
       | s :: rest =>
           {| seg_seek := seg_seek s; seg_start := seg_start s;
              seg_end := seg_end s; seg_text := lstrip (seg_text s) |} :: rest
       end |}.

(** What [atranscribe_streaming_simple] gives its caller: an exception, or
    the language with the segments the returned generator produces and how
    that generator ends. *)
Inductive FacadeResult :=
| FacadeErr (e : PyErr)
| FacadeOk (lang : string) (segments : list Segment) (tail : Outcome).

(** [atranscribe_streaming_simple], over the events of the underlying
    generator: [__anext__] once, strip the first segment of that element,
    map its language, then re-yield all segments. *)
Definition atranscribe_streaming_simple (ev : list Event) (o : Outcome)
  : FacadeResult :=
  match yields ev with
  | [] => FacadeErr (match o with Failed e => e | _ => StopAsyncIteration end)
  | first_elem :: rest =>
      let first_elem := strip_first_segment first_elem in
      match get_lang_from_name (r_language first_elem) with
      | Err e => FacadeErr e
      | Ok l => FacadeOk l (r_segments first_elem ++ flat_map r_segments rest) o
      end
  end.

(** The events the facade causes before it returns: those of the
    generator up to and including its first [yield]. *)
Fixpoint until_first_yield (ev : list Event) : list Event :=
  match ev with
  | [] => []
  | EvYield r :: _ => [EvYield r]
  | e :: rest => e :: until_first_yield rest
  end.

(** ** [trim.py] *)

(** One entry of [metadata["streams"]] reported by ffprobe. *)
Record StreamInfo := mkStreamInfo {
  codec_type : string;
  stream_duration : option Q   (* ["duration" in s] and its value *)
}.

(** What [ffmpeg.probe] does: raise [ffmpeg.Error], whose [e.stderr] is or
    is not valid UTF-8, or return the metadata (its streams and
    [metadata["format"]["duration"]] when present). *)
Inductive ProbeOutcome :=
| ProbeError (stderr_utf8 : bool)
| ProbeOk (streams : list StreamInfo) (format_duration : option Q).

(** [max(...)] of a non-empty iterable of floats. *)
Definition max_list (x : Q) (l : list Q) : Q :=
  fold_left (fun m y => if Qltb m y then y else m) l x.

(** [get_audio_duration_ffprobe] *)
Definition get_audio_duration_ffprobe (probe : ProbeOutcome) : PyResult Q :=
  match probe with
  | ProbeError stderr_utf8 =>
      (* the message of the [RuntimeError] evaluates [e.stderr.decode()] *)
      if stderr_utf8 then Err RuntimeError else Err UnicodeDecodeError
  | ProbeOk streams format_duration =>
      let audio_streams :=
        filter (fun s => String.eqb (codec_type s) "audio") streams in
      match audio_streams with
      | [] => Err NoAudioStreamsError
      | _ =>
          let durations :=
            flat_map (fun s => match stream_duration s with
                               | Some d => [d] | None => [] end) audio_streams in
          match durations with
          | d :: ds => Ok (max_list d ds)
          | [] =>
              match format_duration with
              | Some d => Ok d
              | None => Err RuntimeError
              end
          end
      end
  end.

(** ** Parsing ffmpeg's progress output ([get_audio_duration_decode]) *)

(** [\d] on one character.  A character of the text is one below 256;
    among those, the Unicode decimal digits are exactly [0-9]. *)
Definition is_digit (c : ascii) : bool :=
  Nat.leb 48 (code c) && Nat.leb (code c) 57.

(** The longest prefix of digits, and what follows it. *)
Fixpoint span_digits (s : string) : string * string :=
  match s with
  | EmptyString => (EmptyString, EmptyString)
  | String c r =>
      if is_digit c then let '(d, rest) := span_digits r in (String c d, rest)
      else (EmptyString, s)
  end.

(** [\d+], greedy; since the pattern follows each [\d+] with a non-digit
    or ends there, backtracking never yields another match. *)
Definition match_digits (s : string) : option (string * string) :=
  match span_digits s with
  | (EmptyString, _) => None
  | (d, rest) => Some (d, rest)
  end.

(** A literal in the pattern. *)
Fixpoint match_literal (w s : string) : option string :=
  match w with
  | EmptyString => Some s
  | String c w' =>
      match s with
      | String d s' => if Ascii.eqb c d then match_literal w' s' else None
      | EmptyString => None
      end
  end.

(** [time=(\d+):(\d+):(\d+\.\d+)] anchored at the start of [s]: the three
    groups and the text after the match. *)
Definition match_time_at (s : string) : option ((string * string * string) * string) :=
  match match_literal "time=" s with None => None | Some s1 =>
  match match_digits s1 with None => None | Some (hours, s2) =>
  match match_literal ":" s2 with None => None | Some s3 =>
  match match_digits s3 with None => None | Some (minutes, s4) =>
  match match_literal ":" s4 with None => None | Some s5 =>
  match match_digits s5 with None => None | Some (sec_int, s6) =>
  match match_literal "." s6 with None => None | Some s7 =>
  match match_digits s7 with None => None | Some (sec_frac, s8) =>
    Some ((hours, minutes, (sec_int ++ "." ++ sec_frac)%string), s8)
  end end end end end end end end.

(** [re.findall]: scan left to right; after a match, resume where it ended,
    else one character further.  [fuel] bounds the number of steps; every
    step consumes at least one character. *)
Fixpoint findall_time (fuel : nat) (s : string) : list (string * string * string) :=
  match fuel with
  | O => []
  | S f =>
      match s with
      | EmptyString => []
      | String _ r =>
          match match_time_at s with
          | Some (g, rest) => g :: findall_time f rest
          | None => findall_time f r
          end
      end
  end.

Definition re_findall_time (s : string) : list (string * string * string) :=
  findall_time (S (String.length s)) s.

(** [int(...)] of a string of digits. *)
Definition digits_value (s : string) : Z :=
  fold_left (fun acc c => (10 * acc + Z.of_nat (code c - 48))%Z) (list_ascii_of_string s) 0%Z.

(** [float(...)] of a string of the form [digits.digits], exactly. *)
Definition decimal_value (s : string) : Q :=
  let '(i, rest) := span_digits s in
  match rest with
  | String _ f =>
      inject_Z (digits_value i) +
      inject_Z (digits_value f) / inject_Z (10 ^ Z.of_nat (String.length f))
  | EmptyString => inject_Z (digits_value i)
  end.

(** [time_matches[-1]] turned into seconds, when there is a match. *)
Definition ffmpeg_last_time (err : string) : option Q :=
  match rev (re_findall_time err) with
  | (hours, minutes, seconds) :: _ =>
      Some (inject_Z (digits_value hours * 3600 + digits_value minutes * 60) +
            decimal_value seconds)
  | [] => None
  end.

(** A non-empty string of ASCII digits, as [\d+] matches it. *)
Definition digit_string (s : string) : bool :=
  negb (String.eqb s "") && forallb is_digit (list_ascii_of_string s).

(** [s] does not continue a run of digits. *)
Definition no_leading_digit (s : string) : bool :=
  match s with
  | String c _ => negb (is_digit c)
  | EmptyString => true
  end.

(** [err.decode()] of the stderr bytes of the decoding run ([out, err] of
    [output.run], or [e.stderr] of the [ffmpeg.Error] it raises): the text,
    or [UnicodeDecodeError] when the bytes are not valid UTF-8.  The text's
    characters are code points below 256, as for [is_digit]. *)
Inductive DecodedStderr :=
| StderrText (text : string)
| StderrNotUtf8.

(** [get_audio_duration_decode], from the stderr of ffmpeg's decoding run. *)
Definition get_audio_duration_decode (err : DecodedStderr) : PyResult Q :=
  match err with
  | StderrNotUtf8 => Err UnicodeDecodeError
  | StderrText text =>
      match ffmpeg_last_time text with
      | Some t => Ok t
      | None => Err RuntimeError
      end
  end.

(** [get_audio_duration]: any exception of the ffprobe path falls back to
    decoding. *)
Definition get_audio_duration (probe : ProbeOutcome) (err : DecodedStderr)
  : PyResult Q :=
  match get_audio_duration_ffprobe probe with
  | Ok d => Ok d
  | Err _ => get_audio_duration_decode err
  end.

(** The progress entry [time=H:M:S.F]. *)
Definition progress_entry (h m s f : string) : string :=
  ("time=" ++ h ++ ":" ++ m ++ ":" ++ s ++ "." ++ f)%string.

(** Appending a text that starts with [t]. *)
Definition starts_t (t : string) : Prop := exists t', t = String "t" t'.

(** The two entries of [stream_options]. *)
Inductive StreamOption := PlainStream | AresampleStream.

Definition stream_options : list StreamOption := [PlainStream; AresampleStream].

(** What [stream.run(...)] does: return [(out, err)], noting whether [err]
    contains "nothing was encoded", or raise [ffmpeg.Error] with [e.stdout],
    noting whether its [e.stderr] is valid UTF-8. *)
Inductive RunOutcome :=
| RunOk (out : list Byte.byte) (nothing_encoded : bool)
| RunError (stdout : list Byte.byte) (stderr_utf8 : bool).

(** The [for stream in stream_options] loop with its [else] branch. *)
Fixpoint try_streams (run : StreamOption -> RunOutcome)
    (streams : list StreamOption) (at_least_some_data : list Byte.byte)
  : PyResult (list Byte.byte) :=
  match streams with
  | [] =>
      if Nat.ltb 0 (List.length at_least_some_data) then Ok at_least_some_data
      else Err RuntimeError
  | stream :: rest =>
      match run stream with
      | RunOk out nothing_encoded =>
          if nothing_encoded then Err AudioTrimError else Ok out
      | RunError out stderr_utf8 =>
          (* the warning's f-string evaluates [e.stderr.decode()] *)
          if negb stderr_utf8 then Err UnicodeDecodeError else
          let at_least_some_data :=
            if Nat.ltb (List.length at_least_some_data) (List.length out)
            then out else at_least_some_data in
          try_streams run rest at_least_some_data
      end
  end.

(** [trim_audio_and_convert] ([audio_format] is one of the two literals). *)
Definition trim_audio_and_convert (run : StreamOption -> RunOutcome)
    (start : Q) (end_ : option Q) : PyResult (list Byte.byte) :=
  if negb (Qleb 0 start) then Err AssertionError
  else
    match end_ with
    | Some e => if negb (Qltb 0 (e - start)) then Err AssertionError
                else try_streams run stream_options []
    | None => try_streams run stream_options []
    end.

(** ** Observations used by the statements *)

(** [kwargs["prompt"] = kwargs["prompt"][-1000:]] in [default_atranscribe_fn],
    applied to the copy of [kwargs] it receives. *)
Definition default_atranscribe_prompt (prompt : option string) : option string :=
  option_map (py_suffix 1000) prompt.

(** The requests of a run, in order. *)
Definition transcribe_requests (ev : list Event) : list Request :=
  flat_map (fun e => match e with EvTranscribe q => [q] | _ => [] end) ev.

(** A segment used only as the default of [List.last]. *)
Definition dummy_segment : Segment := mkSegment 0 0 0 EmptyString.

(** The start and end values of a list of segments, in emission order. *)
Definition seg_times (segs : list Segment) : list Q :=
  flat_map (fun s => [seg_start s; seg_end s]) segs.

Fixpoint sorted_qb (l : list Q) : bool :=
  match l with
  | x :: ((y :: _) as t) => Qleb x y && sorted_qb t
  | _ => true
  end.

(** The answer to a request over a window of [duration] seconds lists its
    segments with slice-relative times that are non-negative, at most
    [duration], and non-decreasing in the order start, end, start, end, ... *)
Definition result_wf (duration : Q) (r : Transcription) : bool :=
  sorted_qb (seg_times (r_segments r))
  && forallb (fun t => Qleb 0 t && Qleb t duration) (seg_times (r_segments r)).



(** The texts of a list of yielded results, concatenated. *)
Definition texts_of (ys : list Transcription) : string :=
  fold_right (fun y acc => (r_text y ++ acc)%string) EmptyString ys.

(** The durations ffprobe reports for the audio streams, in stream order. *)
Definition audio_stream_durations (streams : list StreamInfo) : list Q :=
  flat_map (fun s => if String.eqb (codec_type s) "audio"
                     then match stream_duration s with Some d => [d] | None => [] end
                     else []) streams.

(** Every segment of an answer ends at a non-negative slice-relative time. *)
Definition seg_ends_nonneg (r : Transcription) : Prop :=
  Forall (fun s => 0 <= seg_end s) (r_segments r).

(** The loop state keeps a non-negative cursor, the window [_get_end]
    computed for it, and an answer whose segment ends are non-negative. *)
Definition window_inv (chunk_size_fn : nat -> Q) (audio_duration : Q)
    (st : LoopState) : Prop :=
  0 <= ls_start st /\
  ls_end st = get_end chunk_size_fn audio_duration (ls_start st) (ls_chunk_index st) /\
  seg_ends_nonneg (ls_r st).

(** ** Concrete inputs *)

Definition ex_segment (a b : Q) (t : string) : Segment := mkSegment 0 a b t.

(** A French recording whose first answer has a comma but no capital. *)
Definition ex_french_service (n : nat) (req : Request) : Transcription :=
  match n with
  | O => mkTranscription "french" "bonjour, tout le monde"
           [ex_segment 0 2 "bonjour, tout le monde"]
  | _ => mkTranscription "french" "Bonjour, tout le monde."
           [ex_segment 0 2 "Bonjour, tout le monde."]
  end.

Definition ex_priming (lang : string) : string :=
  "Eh bien, que voulais-je dire? Commencons.".

(** A recording whose first 30 seconds are silent. *)
Definition ex_silence_service (n : nat) (req : Request) : Transcription :=
  match n with
  | O => mkTranscription "english" "" []
  | _ => mkTranscription "english" " hello" [ex_segment 0 2 " hello"]
  end.

(** A service whose answers are well formed for every window: two
    segments when the window lasts two seconds or more, none otherwise. *)
Definition ex_wf_service (n : nat) (req : Request) : Transcription :=
  if Qleb 2 (rq_end req - rq_start req)
  then mkTranscription "english" " a b" [ex_segment 0 1 " a"; ex_segment 1 2 " b"]
  else mkTranscription "english" "" [].

(** The loop state after a first window [0, 30) of a 65-second recording
    whose answer ends with a segment that crosses the window end. *)
Definition ex_loop_state : LoopState :=
  mkLoopState 0 30 0 (Some " earlier"%string) (Some "en"%string) 1
    (mkTranscription "english" " a b c"
       [ex_segment 0 (98 # 10) " a"; ex_segment 10 (199 # 10) " b";
        ex_segment 20 (3099 # 100) " c"]).

Definition ex_plain_cfg : Config := mkConfig None false None.

Definition ex_force_cfg : Config := mkConfig None true None.

(** A language name the table does not know. *)
Definition ex_unknown_cfg : Config := mkConfig (Some "Klingon"%string) false None.

(** A probe with a video stream and three audio streams, one of them
    without a duration. *)
Definition ex_streams : list StreamInfo :=
  [mkStreamInfo "video" (Some 90); mkStreamInfo "audio" (Some 61);
   mkStreamInfo "audio" None; mkStreamInfo "audio" (Some 62)].

(** * Proofs *)

Lemma Qltb_true a b : Qltb a b = true <-> a < b.
Proof.
  unfold Qltb. rewrite negb_true_iff.
  split; intro H.
  - apply Qnot_le_lt. intro H'. apply Qle_bool_iff in H'. congruence.
  - destruct (Qle_bool b a) eqn:E; auto.
    apply Qle_bool_iff in E. exfalso. apply (Qlt_not_le a b); auto.
Qed.

Lemma Qltb_false a b : Qltb a b = false <-> b <= a.
Proof.
  unfold Qltb. rewrite negb_false_iff. apply Qle_bool_iff.
Qed.

Lemma Qleb_true a b : Qleb a b = true <-> a <= b.
Proof. apply Qle_bool_iff. Qed.

Lemma Qleb_false a b : Qleb a b = false <-> b < a.
Proof.
  unfold Qleb. split; intro H.
  - apply Qnot_le_lt. intro H'. apply Qle_bool_iff in H'. congruence.
  - destruct (Qle_bool a b) eqn:E; auto.
    apply Qle_bool_iff in E. exfalso. apply (Qlt_not_le b a); auto.
Qed.

Lemma last_opt_last {A} (l : list A) (d : A) :
  l <> [] -> last_opt l = Ok (last l d).
Proof.
  intro H. destruct (exists_last H) as [l' [a ->]].
  unfold last_opt. rewrite rev_app_distr, last_last. reflexivity.
Qed.

Lemma last_opt_nil {A} : @last_opt A [] = Err IndexError.
Proof. reflexivity. Qed.

Lemma firstn_not_nil {A} (m : nat) (l : list A) :
  (1 <= m)%nat -> (1 <= List.length l)%nat -> firstn m l <> [].
Proof.
  intros Hm Hl. destruct m as [|m]; [lia|]. destruct l as [|a l]; simpl in *; [lia|].
  discriminate.
Qed.

(** The [for]/[else] loop drops [k] trailing segments, [1 <= k <= budget],
    each drop but the last leaving a last segment that does not end before
    [end_]; it stops on the first one that does, or on the budget. *)
Lemma skip_trailing_spec (end_ : Q) (b : nat) (segs : list Segment) :
  (1 <= b)%nat -> (b + 1 <= List.length segs)%nat ->
  exists k, (1 <= k <= b)%nat /\
    skip_trailing b end_ segs = Ok (firstn (List.length segs - k) segs) /\
    (forall j, (1 <= j < k)%nat ->
       end_ <= seg_end (last (firstn (List.length segs - j) segs) dummy_segment)) /\
    (seg_end (last (firstn (List.length segs - k) segs) dummy_segment) < end_
     \/ k = b).
Proof.
  revert segs. induction b as [|b IH]; intros segs Hb Hlen; [lia|].
  cbn [skip_trailing].
  rewrite removelast_firstn_len.
  set (n := List.length segs) in *.
  assert (Hne : firstn (Nat.pred n) segs <> []) by (apply firstn_not_nil; lia).
  rewrite (last_opt_last _ dummy_segment Hne).
  destruct (Qltb (seg_end (last (firstn (Nat.pred n) segs) dummy_segment)) end_)
    eqn:Hlt.
  - exists 1%nat. replace (n - 1)%nat with (Nat.pred n) by lia.
    apply Qltb_true in Hlt. repeat split; auto; try lia.
  - apply Qltb_false in Hlt.
    destruct b as [|b].
    + exists 1%nat. cbn [skip_trailing].
      rewrite (last_opt_last _ dummy_segment Hne).
      replace (n - 1)%nat with (Nat.pred n) by lia.
      repeat split; auto; try lia.
    + assert (Hlen' : (S b + 1 <= List.length (firstn (Nat.pred n) segs))%nat)
        by (rewrite length_firstn; lia).
      destruct (IH (firstn (Nat.pred n) segs) ltac:(lia) Hlen')
        as [k [Hk [Hrun [Hbefore Hstop]]]].
      rewrite length_firstn in Hrun, Hbefore, Hstop.
      replace (Nat.min (Nat.pred n) (List.length segs)) with (Nat.pred n) in * by (unfold n; lia).
      rewrite firstn_firstn in Hrun, Hstop.
      exists (S k). split; [lia|]. split; [|split].
      * rewrite Hrun. f_equal. f_equal. lia.
      * intros j Hj. destruct (PeanoNat.Nat.eq_dec j 1) as [->|Hj1].
        -- replace (n - 1)%nat with (Nat.pred n) by lia. exact Hlt.
        -- specialize (Hbefore (j - 1)%nat ltac:(lia)).
           rewrite firstn_firstn in Hbefore.
           replace (Nat.min (Nat.pred n - (j - 1)) (Nat.pred n)) with (n - j)%nat
             in Hbefore by lia. exact Hbefore.
      * replace (Nat.min (Nat.pred n - k) (Nat.pred n)) with (n - S k)%nat
          in Hstop by lia.
        destruct Hstop as [Hstop|Hstop]; [left; exact Hstop | right; lia].
Qed.

Lemma boundary_trim_small (end_ : Q) (r : Transcription) :
  (List.length (r_segments r) <= 1)%nat -> boundary_trim end_ r = Ok (end_, r).
Proof.
  intro H. unfold boundary_trim.
  destruct (r_segments r) as [|a [|b rest]]; simpl in *; auto; lia.
Qed.

Lemma boundary_trim_unfold_multi (end_ : Q) (r : Transcription) :
  (2 <= List.length (r_segments r))%nat ->
  boundary_trim end_ r =
  match skip_trailing (List.length (r_segments r) - 1) end_ (r_segments r) with
  | Err e => Err e
  | Ok segs' =>
      match last_opt segs' with
      | Err e => Err e
      | Ok l =>
          Ok (py_min (seg_end l) end_,
              {| r_language := r_language r;
                 r_text := join_texts segs';
                 r_segments := segs' |})
      end
  end.
Proof.
  intro H. unfold boundary_trim.
  destruct (r_segments r) as [|a [|b rest]]; simpl in H; try lia.
  replace (Nat.max 1 (List.length (a :: b :: rest) - 1))
    with (List.length (a :: b :: rest) - 1)%nat by (simpl; lia).
  reflexivity.
Qed.

Lemma boundary_trim_multi (end_ : Q) (r : Transcription) :
  let segs := r_segments r in
  let n := List.length segs in
  (2 <= n)%nat ->
  exists k, (1 <= k <= n - 1)%nat /\
    (forall j, (1 <= j < k)%nat ->
       end_ <= seg_end (last (firstn (n - j) segs) dummy_segment)) /\
    (seg_end (last (firstn (n - k) segs) dummy_segment) < end_ \/ k = (n - 1)%nat) /\
    boundary_trim end_ r =
      Ok (py_min (seg_end (last (firstn (n - k) segs) dummy_segment)) end_,
          {| r_language := r_language r;
             r_text := join_texts (firstn (n - k) segs);
             r_segments := firstn (n - k) segs |}).
Proof.
  intros segs n Hn.
  destruct (skip_trailing_spec end_ (n - 1) segs ltac:(lia) ltac:(unfold n; lia))
    as [k [Hk [Hrun [Hbefore Hstop]]]].
  fold n in Hrun, Hbefore, Hstop.
  exists k. split; [lia|]. split; [exact Hbefore|]. split; [exact Hstop|].
  rewrite (boundary_trim_unfold_multi end_ r ltac:(fold segs n; lia)).
  fold segs n. rewrite Hrun.
  assert (Hne : firstn (n - k) segs <> []) by (apply firstn_not_nil; unfold n; lia).
  rewrite (last_opt_last _ dummy_segment Hne). reflexivity.
Qed.

Lemma py_min_le_r (a b : Q) : py_min a b <= b.
Proof.
  unfold py_min. destruct (Qltb b a) eqn:E.
  - apply Qle_refl.
  - apply Qltb_false in E. exact E.
Qed.

Lemma py_min_le_l (a b : Q) : py_min a b <= a.
Proof.
  unfold py_min. destruct (Qltb b a) eqn:E.
  - apply Qltb_true in E. apply Qlt_le_weak. exact E.
  - apply Qle_refl.
Qed.

Lemma py_min_clamp (a b : Q) : b <= a -> py_min a b == b.
Proof.
  intro H. unfold py_min. destruct (Qltb b a) eqn:E.
  - reflexivity.
  - apply Qltb_false in E. apply Qle_antisym; assumption.
Qed.

(** C4: the end clamp. *)
(** [_get_end start i] is the nominal end [start + chunk_size_fn i] unless
    the audio left after it is shorter than the chunk, in which case it is
    the total duration; for a positive chunk size it equals the total
    duration exactly when that condition holds. *)
Theorem get_end_clamp (chunk_size_fn : nat -> Q) (audio_duration start : Q)
    (i : nat) :
  let nominal := start + chunk_size_fn i in
  (audio_duration - nominal < chunk_size_fn i ->
     get_end chunk_size_fn audio_duration start i = audio_duration) /\
  (chunk_size_fn i <= audio_duration - nominal ->
     get_end chunk_size_fn audio_duration start i = nominal) /\
  (0 < chunk_size_fn i ->
     (get_end chunk_size_fn audio_duration start i == audio_duration <->
      audio_duration - nominal < chunk_size_fn i)).
Proof.
  intros nominal. unfold get_end. fold nominal.
  destruct (Qltb (audio_duration - nominal) (chunk_size_fn i)) eqn:E.
  - apply Qltb_true in E. repeat split; intros; auto; try reflexivity.
    exfalso. apply (Qlt_not_le _ _ E). assumption.
  - apply Qltb_false in E. repeat split; intros; auto.
    + exfalso. apply (Qlt_not_le _ _ H). assumption.
    + exfalso. unfold nominal in *. lra.
    + exfalso. apply (Qlt_not_le _ _ H0). assumption.
Qed.

(** C1: the boundary-trim decision of a non-terminal window. *)
(** For a window ending before the end of the audio, one pass of the loop
    always continues.  With at most one (rebased) segment nothing is removed
    and the cursor moves to the window end.  With [n >= 2] segments, [k]
    trailing segments are removed, [1 <= k <= n - 1], none of the
    intermediate last segments ending before the window end, and the
    removal stops at the first last segment that ends before it or when the
    budget [n - 1] is spent; the cursor becomes [min(last end, window end)],
    which is the window end when the budget ran out on a segment reaching
    it, and the yielded text is the concatenation of the kept segments. *)
Theorem boundary_trim_decision (chunk_size_fn : nat -> Q) (audio_duration : Q)
    (atranscribe : nat -> Request -> Transcription)
    (get_punctuation_prompt_for_lang : string -> string) (st : LoopState) :
  ls_end st < audio_duration ->
  let segs := r_segments (rebase (ls_start st) (ls_r st)) in
  let n := List.length segs in
  exists y req st',
    core_step chunk_size_fn audio_duration atranscribe st = StepNext y req st' /\
    ((n <= 1)%nat -> r_segments y = segs /\ ls_start st' = ls_end st) /\
    ((2 <= n)%nat ->
     exists k, (1 <= k <= n - 1)%nat /\
       r_segments y = firstn (n - k) segs /\
       (forall j, (1 <= j < k)%nat ->
          ls_end st <= seg_end (last (firstn (n - j) segs) dummy_segment)) /\
       (seg_end (last (r_segments y) dummy_segment) < ls_end st
        \/ k = (n - 1)%nat) /\
       ls_start st' = py_min (seg_end (last (r_segments y) dummy_segment)) (ls_end st) /\
       ls_start st' <= ls_end st /\
       (ls_end st <= seg_end (last (r_segments y) dummy_segment) ->
        ls_start st' == ls_end st) /\
       r_text y = join_texts (r_segments y)).
Proof.
  intros Hnt segs n.
  unfold core_step.
  assert (Hb : Qleb audio_duration (ls_end st) = false) by (apply Qleb_false; exact Hnt).
  rewrite Hb.
  destruct (Compare_dec.le_lt_dec n 1) as [Hsmall|Hbig].
  - rewrite (boundary_trim_small (ls_end st) _ Hsmall).
    eexists _, _, _. split; [reflexivity|]. split.
    + intros _. simpl. auto.
    + intro. lia.
  - destruct (boundary_trim_multi (ls_end st) (rebase (ls_start st) (ls_r st))
                ltac:(fold segs n; lia))
      as [k [Hk [Hbefore [Hstop Htrim]]]].
    fold segs n in Hk, Hbefore, Hstop, Htrim.
    rewrite Htrim.
    eexists _, _, _. split; [reflexivity|]. split.
    + intro. lia.
    + intros _. exists k. cbn [r_segments r_text ls_start].
      split; [lia|]. split; [reflexivity|]. split; [exact Hbefore|].
      split; [exact Hstop|]. split; [reflexivity|].
      split; [apply py_min_le_r|].
      split; [intro Hge; apply py_min_clamp; exact Hge|].
      reflexivity.
Qed.

Lemma substring_0_all (m : nat) (s : string) :
  (String.length s <= m)%nat -> substring 0 m s = s.
Proof.
  revert m. induction s as [|c s IH]; intros m H; destruct m; simpl in *;
    auto; try lia.
  f_equal. apply IH. lia.
Qed.

Lemma substring_split (n m : nat) (s : string) :
  (n + m = String.length s)%nat ->
  s = (substring 0 n s ++ substring n m s)%string.
Proof.
  revert s. induction n as [|n IH]; intros s H.
  - replace (substring 0 0 s) with EmptyString by (destruct s; reflexivity).
    simpl. rewrite (substring_0_all m s); [reflexivity | lia].
  - destruct s as [|c s]; simpl in *; [lia|].
    f_equal. apply IH. lia.
Qed.

Lemma substring_length (n m : nat) (s : string) :
  (n + m <= String.length s)%nat -> String.length (substring n m s) = m.
Proof.
  revert n m. induction s as [|c s IH]; intros n m H.
  - simpl in H. destruct n, m; simpl; auto; lia.
  - destruct n, m; simpl in *; auto.
    + rewrite IH; lia.
    + apply IH. lia.
    + apply IH. lia.
Qed.

(** [s[-k:]] is a suffix of [s] of length [min(k, len(s))]. *)
Lemma py_suffix_spec (k : nat) (s : string) :
  exists dropped, s = (dropped ++ py_suffix k s)%string /\
    String.length (py_suffix k s) = Nat.min k (String.length s).
Proof.
  unfold py_suffix.
  destruct (Compare_dec.le_lt_dec k (String.length s)) as [H|H].
  - exists (substring 0 (String.length s - k) s). split.
    + apply substring_split. lia.
    + rewrite substring_length; lia.
  - replace (String.length s - k)%nat with 0%nat by lia.
    rewrite substring_0_all by lia.
    exists EmptyString. split; [reflexivity | lia].
Qed.

(** C5: evolution of the continuation prompt. *)
(** Every non-terminal pass of the loop sets [kwargs["prompt"]] to the old
    prompt (empty when absent) followed by the text it yields, and the next
    request carries that prompt unshortened; only [default_atranscribe_fn]
    cuts the prompt it sends, to its last [min(1000, len)] characters. *)
Theorem prompt_grows_by_retained_text (chunk_size_fn : nat -> Q)
    (audio_duration : Q) (atranscribe : nat -> Request -> Transcription)
    (st : LoopState) (y : Transcription) (req : Request) (st' : LoopState) :
  core_step chunk_size_fn audio_duration atranscribe st = StepNext y req st' ->
  ls_prompt st' = Some (prompt_or_empty (ls_prompt st) ++ r_text y)%string /\
  rq_prompt req = ls_prompt st' /\
  (forall p, exists dropped,
     default_atranscribe_prompt (Some p) = Some (py_suffix 1000 p) /\
     p = (dropped ++ py_suffix 1000 p)%string /\
     String.length (py_suffix 1000 p) = Nat.min 1000 (String.length p)).
Proof.
  intro H. unfold core_step in H.
  destruct (Qleb audio_duration (ls_end st)); [discriminate|].
  destruct (boundary_trim (ls_end st) (rebase (ls_start st) (ls_r st)))
    as [[start' r']|e]; [|discriminate].
  injection H as <- <- <-. simpl.
  split; [reflexivity|]. split; [reflexivity|].
  intro p. destruct (py_suffix_spec 1000 p) as [dropped [Hp Hl]].
  exists dropped. split; [reflexivity|]. split; assumption.
Qed.

(** ** Sortedness of times *)

Lemma Qle_transitive : Relations_1.Transitive Qle.
Proof. intros x y z. apply Qle_trans. Qed.

Lemma sorted_qb_spec (l : list Q) : sorted_qb l = true <-> Sorted Qle l.
Proof.
  induction l as [|x l IH].
  - split; auto.
  - destruct l as [|y l].
    + split; auto.
    + change (sorted_qb (x :: y :: l)) with (Qleb x y && sorted_qb (y :: l)).
      rewrite andb_true_iff, Qleb_true, IH. split.
      * intros [Hxy Hs]. constructor; auto.
      * intro Hs. inversion Hs as [|? ? Hs' Hhd]; subst.
        inversion Hhd; subst. auto.
Qed.

Lemma strongly_sorted_app (a b : list Q) :
  StronglySorted Qle a -> StronglySorted Qle b ->
  (forall x y, In x a -> In y b -> x <= y) ->
  StronglySorted Qle (a ++ b).
Proof.
  induction a as [|x a IH]; intros Ha Hb Hab; simpl; auto.
  inversion Ha as [|? ? Ha' Hx]; subst.
  constructor.
  - apply IH; auto. intros u v Hu Hv. apply Hab; simpl; auto.
  - apply Forall_app. split; auto.
    apply Forall_forall. intros v Hv. apply Hab; simpl; auto.
Qed.

Lemma sorted_app (a b : list Q) :
  Sorted Qle a -> Sorted Qle b ->
  (forall x y, In x a -> In y b -> x <= y) -> Sorted Qle (a ++ b).
Proof.
  intros Ha Hb Hab. apply StronglySorted_Sorted.
  apply strongly_sorted_app; auto;
    apply Sorted_StronglySorted; auto; exact Qle_transitive.
Qed.

Lemma sorted_app_l (a b : list Q) : Sorted Qle (a ++ b) -> Sorted Qle a.
Proof.
  intro H. apply Sorted_StronglySorted in H; [|exact Qle_transitive].
  apply StronglySorted_Sorted.
  induction a as [|x a IH]; simpl in *; [constructor|].
  inversion H as [|? ? H' Hx]; subst. constructor; auto.
  apply Forall_app in Hx. tauto.
Qed.

Lemma sorted_le_last (l : list Q) (d x : Q) :
  Sorted Qle l -> In x l -> x <= last l d.
Proof.
  intros Hs. apply Sorted_StronglySorted in Hs; [|exact Qle_transitive].
  revert x. induction l as [|y l IH]; intros x Hin; [destruct Hin|].
  inversion Hs as [|? ? Hs' Hy]; subst.
  destruct l as [|z l].
  - destruct Hin as [->|[]]. apply Qle_refl.
  - change (last (y :: z :: l) d) with (last (z :: l) d).
    destruct Hin as [->|Hin].
    + apply Qle_trans with z.
      * rewrite Forall_forall in Hy. apply Hy. left; reflexivity.
      * apply IH; auto. left; reflexivity.
    + apply IH; auto.
Qed.

Lemma sorted_shift (l : list Q) (s : Q) :
  Sorted Qle l -> Sorted Qle (map (fun t => t + s) l).
Proof.
  intro H. induction H as [|x l Hl IH Hhd]; simpl; constructor; auto.
  destruct Hhd; simpl; constructor. apply Qplus_le_compat; auto. apply Qle_refl.
Qed.

Lemma seg_times_app (a b : list Segment) :
  seg_times (a ++ b) = seg_times a ++ seg_times b.
Proof. unfold seg_times. apply flat_map_app. Qed.

Lemma seg_times_rebase (s : Q) (segs : list Segment) :
  seg_times (map (rebase_segment s) segs) = map (fun t => t + s) (seg_times segs).
Proof. induction segs as [|x segs IH]; simpl; [reflexivity|]. rewrite IH. reflexivity. Qed.

Lemma seg_times_last (segs : list Segment) (d : Q) :
  segs <> [] ->
  last (seg_times segs) d = seg_end (last segs dummy_segment) /\
  In (seg_end (last segs dummy_segment)) (seg_times segs).
Proof.
  intro H. destruct (exists_last H) as [l [a ->]].
  rewrite seg_times_app, last_last. simpl.
  replace (seg_times l ++ [seg_start a; seg_end a])
    with ((seg_times l ++ [seg_start a]) ++ [seg_end a])
    by (rewrite <- app_assoc; reflexivity).
  rewrite last_last. split; [reflexivity|].
  apply in_or_app. right. left. reflexivity.
Qed.

Lemma result_wf_spec (d : Q) (r : Transcription) :
  result_wf d r = true ->
  Sorted Qle (seg_times (r_segments r)) /\
  Forall (fun t => 0 <= t /\ t <= d) (seg_times (r_segments r)).
Proof.
  unfold result_wf. rewrite andb_true_iff, sorted_qb_spec, forallb_forall.
  intros [Hs Hb]. split; auto.
  apply Forall_forall. intros t Ht. specialize (Hb t Ht).
  rewrite andb_true_iff, !Qleb_true in Hb. exact Hb.
Qed.

(** ** The loop invariant behind monotonicity *)

(** The window of the state is the one [_get_end] computed for its cursor,
    and the pending answer is well formed for that window. *)
Definition loop_inv (chunk_size_fn : nat -> Q) (audio_duration : Q)
    (st : LoopState) : Prop :=
  ls_end st = get_end chunk_size_fn audio_duration (ls_start st) (ls_chunk_index st)
  /\ result_wf (ls_end st - ls_start st) (ls_r st) = true.

Lemma boundary_trim_cases (end_ : Q) (r : Transcription) (c : Q) (y : Transcription) :
  boundary_trim end_ r = Ok (c, y) ->
  (c = end_ /\ y = r) \/
  (exists m, r_segments y = firstn m (r_segments r) /\ r_segments y <> [] /\
     c = py_min (seg_end (last (r_segments y) dummy_segment)) end_).
Proof.
  intro H.
  destruct (Compare_dec.le_lt_dec (List.length (r_segments r)) 1) as [Hs|Hb].
  - rewrite boundary_trim_small in H by exact Hs. injection H as <- <-. left; auto.
  - destruct (boundary_trim_multi end_ r ltac:(lia)) as [k [Hk [_ [_ Ht]]]].
    rewrite Ht in H. injection H as <- <-. right.
    exists (List.length (r_segments r) - k)%nat. simpl.
    split; [reflexivity|]. split; [|reflexivity].
    apply firstn_not_nil; lia.
Qed.

Lemma core_step_next (chunk_size_fn : nat -> Q) (audio_duration : Q)
    (atranscribe : nat -> Request -> Transcription) (st : LoopState)
    (y : Transcription) (req : Request) (st' : LoopState) :
  core_step chunk_size_fn audio_duration atranscribe st = StepNext y req st' ->
  ls_end st < audio_duration /\
  boundary_trim (ls_end st) (rebase (ls_start st) (ls_r st)) = Ok (ls_start st', y) /\
  ls_end st' = get_end chunk_size_fn audio_duration (ls_start st') (ls_chunk_index st') /\
  ls_r st' = atranscribe (ls_calls st) req /\
  rq_start req = ls_start st' /\ rq_end req = ls_end st'.
Proof.
  intro H. unfold core_step in H.
  destruct (Qleb audio_duration (ls_end st)) eqn:Hb; [discriminate|].
  apply Qleb_false in Hb.
  destruct (boundary_trim (ls_end st) (rebase (ls_start st) (ls_r st)))
    as [[c r']|e] eqn:Ht; [|discriminate].
  injection H as <- <- <-. simpl. auto 7.
Qed.

Lemma rebased_times (st : LoopState) :
  result_wf (ls_end st - ls_start st) (ls_r st) = true ->
  let ts := seg_times (r_segments (rebase (ls_start st) (ls_r st))) in
  Sorted Qle ts /\ Forall (fun t => ls_start st <= t /\ t <= ls_end st) ts.
Proof.
  intros Hr ts. destruct (result_wf_spec _ _ Hr) as [Hsort Hrange].
  unfold ts. simpl. rewrite seg_times_rebase. split.
  - apply sorted_shift. exact Hsort.
  - apply Forall_map. eapply Forall_impl; [|exact Hrange].
    intros t [H0 H1]. simpl. split; lra.
Qed.

Lemma core_step_done_sorted (chunk_size_fn : nat -> Q) (audio_duration : Q)
    (atranscribe : nat -> Request -> Transcription) (st : LoopState)
    (r : Transcription) :
  loop_inv chunk_size_fn audio_duration st ->
  core_step chunk_size_fn audio_duration atranscribe st = StepDone r ->
  Sorted Qle (seg_times (r_segments r)) /\
  Forall (fun t => ls_start st <= t) (seg_times (r_segments r)).
Proof.
  intros [_ Hr] H. destruct (rebased_times st Hr) as [Hs Hb].
  unfold core_step in H.
  destruct (Qleb audio_duration (ls_end st)).
  - injection H as <-. split; [exact Hs|].
    eapply Forall_impl; [|exact Hb]. intros t [Ht _]. exact Ht.
  - destruct (boundary_trim _ _) as [[? ?]|?]; discriminate.
Qed.

Lemma core_step_next_sorted (chunk_size_fn : nat -> Q) (audio_duration : Q)
    (atranscribe : nat -> Request -> Transcription) (st : LoopState)
    (y : Transcription) (req : Request) (st' : LoopState) :
  (forall i, 0 <= chunk_size_fn i) ->
  (forall n req, result_wf (rq_end req - rq_start req) (atranscribe n req) = true) ->
  loop_inv chunk_size_fn audio_duration st ->
  core_step chunk_size_fn audio_duration atranscribe st = StepNext y req st' ->
  Sorted Qle (seg_times (r_segments y)) /\
  Forall (fun t => ls_start st <= t /\ t <= ls_start st') (seg_times (r_segments y)) /\
  ls_start st <= ls_start st' /\
  loop_inv chunk_size_fn audio_duration st'.
Proof.
  intros Hcs Hwf [Hend Hr] Hstep.
  destruct (core_step_next _ _ _ _ _ _ _ Hstep)
    as [Hnt [Htrim [Hend' [Hr' [Hqs Hqe]]]]].
  destruct (rebased_times st Hr) as [Hrs Hrr].
  set (s := ls_start st) in *. set (e := ls_end st) in *.
  assert (Hse : s <= e).
  { rewrite Hend in Hnt |- *. unfold get_end in Hnt |- *.
    destruct (Qltb _ _).
    - exfalso. apply (Qlt_irrefl audio_duration). exact Hnt.
    - specialize (Hcs (ls_chunk_index st)). lra. }
  assert (Hinv : loop_inv chunk_size_fn audio_duration st').
  { split; [exact Hend'|]. rewrite Hr', <- Hqs, <- Hqe. apply Hwf. }
  destruct (boundary_trim_cases _ _ _ _ Htrim) as [[Hc ->]|[m [Hm [Hne Hc]]]].
  - rewrite Hc. split; [exact Hrs|]. split; [exact Hrr|]. split; [exact Hse|].
    exact Hinv.
  - set (segs := r_segments (rebase s (ls_r st))) in *.
    assert (Hsplit : seg_times segs =
              seg_times (r_segments y) ++ seg_times (skipn m segs))
      by (rewrite Hm, <- seg_times_app, firstn_skipn; reflexivity).
    rewrite Hsplit in Hrs, Hrr. apply Forall_app in Hrr. destruct Hrr as [Hry _].
    destruct (seg_times_last (r_segments y) 0 Hne) as [Hlast Hin].
    assert (Hys : Sorted Qle (seg_times (r_segments y)))
      by (eapply sorted_app_l; exact Hrs).
    rewrite Forall_forall in Hry. destruct (Hry _ Hin) as [Hl1 Hl2].
    split; [exact Hys|]. split; [|split; [|exact Hinv]].
    + apply Forall_forall. intros t Ht. destruct (Hry t Ht) as [Ht1 Ht2].
      split; [exact Ht1|]. rewrite Hc. unfold py_min.
      destruct (Qltb _ _); [exact Ht2|].
      rewrite <- Hlast. apply sorted_le_last; assumption.
    + rewrite Hc. unfold py_min. destruct (Qltb _ _); assumption.
Qed.

Lemma emitted_segments_yield (r : Transcription) (ev : list Event) :
  emitted_segments (EvYield r :: ev) = r_segments r ++ emitted_segments ev.
Proof. reflexivity. Qed.

Lemma emitted_segments_request (q : Request) (ev : list Event) :
  emitted_segments (EvTranscribe q :: ev) = emitted_segments ev.
Proof. reflexivity. Qed.

Lemma emitted_segments_probe (ev : list Event) :
  emitted_segments (EvProbe :: ev) = emitted_segments ev.
Proof. reflexivity. Qed.

Lemma emitted_segments_nil : emitted_segments [] = [].
Proof. reflexivity. Qed.

Lemma run_loop_sorted (chunk_size_fn : nat -> Q) (audio_duration : Q)
    (atranscribe : nat -> Request -> Transcription) :
  (forall i, 0 <= chunk_size_fn i) ->
  (forall n req, result_wf (rq_end req - rq_start req) (atranscribe n req) = true) ->
  forall fuel st, loop_inv chunk_size_fn audio_duration st ->
  let ts := seg_times (emitted_segments
              (fst (run_loop chunk_size_fn audio_duration atranscribe fuel st))) in
  Sorted Qle ts /\ Forall (fun t => ls_start st <= t) ts.
Proof.
  intros Hcs Hwf fuel. induction fuel as [|fuel IH]; intros st Hinv ts;
    unfold ts; clear ts; simpl;
    destruct (core_step chunk_size_fn audio_duration atranscribe st)
      as [r|err|y req st'] eqn:Hstep; simpl;
    rewrite ?emitted_segments_yield, ?emitted_segments_request,
      ?emitted_segments_nil.
  all: try (split; constructor).
  all: try (rewrite app_nil_r;
            exact (core_step_done_sorted _ _ _ _ _ Hinv Hstep)).
  all: destruct (core_step_next_sorted _ _ _ _ _ _ _ Hcs Hwf Hinv Hstep)
         as [Hys [Hyb [Hss' Hinv']]].
  - rewrite app_nil_r. split; [exact Hys|].
    eapply Forall_impl; [|exact Hyb]. intros t [Ht _]. exact Ht.
  - destruct (run_loop chunk_size_fn audio_duration atranscribe fuel st')
      as [ev o] eqn:Hrun. simpl.
    specialize (IH st' Hinv'). rewrite Hrun in IH. simpl in IH.
    destruct IH as [Hrs Hrb].
    rewrite emitted_segments_yield, emitted_segments_request, seg_times_app.
    split.
    + apply sorted_app; [exact Hys | exact Hrs |].
      intros u v Hu Hv. rewrite Forall_forall in Hyb, Hrb.
      apply Qle_trans with (ls_start st').
      * apply (Hyb u Hu).
      * apply (Hrb v Hv).
    + apply Forall_app. split.
      * eapply Forall_impl; [|exact Hyb]. intros t [Ht _]. exact Ht.
      * eapply Forall_impl; [|exact Hrb]. intros t Ht. apply Qle_trans with (ls_start st'); assumption.
Qed.

Lemma in_seg_times (segs : list Segment) (x : Segment) :
  In x segs -> In (seg_start x) (seg_times segs) /\ In (seg_end x) (seg_times segs).
Proof.
  induction segs as [|a segs IH]; intro Hin; [destruct Hin|].
  simpl. destruct Hin as [->|H]; auto.
  destruct (IH H). auto.
Qed.

Lemma seg_times_sorted_projections (segs : list Segment) :
  Sorted Qle (seg_times segs) ->
  Sorted Qle (map seg_start segs) /\ Sorted Qle (map seg_end segs).
Proof.
  intro H. apply Sorted_StronglySorted in H; [|exact Qle_transitive].
  cut (StronglySorted Qle (map seg_start segs) /\
       StronglySorted Qle (map seg_end segs)).
  { intros [H1 H2]. split; apply StronglySorted_Sorted; assumption. }
  induction segs as [|a segs IH]; simpl in *; [split; constructor|].
  inversion H as [|? ? H' Ha]; subst. inversion H' as [|? ? H'' Hb]; subst.
  destruct (IH H'') as [IH1 IH2].
  rewrite Forall_forall in Ha, Hb.
  split; constructor; auto; apply Forall_forall; intros t Ht;
    apply in_map_iff in Ht; destruct Ht as [x [<- Hx]];
    destruct (in_seg_times segs x Hx) as [Hs He].
  - apply Ha. right. exact Hs.
  - apply Hb. exact He.
Qed.

Ltac destruct_matches_in H :=
  repeat match type of H with
         | context [match ?x with _ => _ end] => destruct x eqn:?
         end.

Lemma result_wf_capitalize (d : Q) (r : Transcription) :
  result_wf d (capitalize_result r) = result_wf d r.
Proof. unfold result_wf. simpl. destruct (r_segments r); reflexivity. Qed.

Lemma engine_start_emits_nothing (chunk_size_fn : nat -> Q) (audio_duration : Q)
    (atranscribe : nat -> Request -> Transcription)
    (get_punctuation_prompt_for_lang : string -> string) (cfg : Config) :
  emitted_segments (fst (engine_start chunk_size_fn audio_duration atranscribe
                           get_punctuation_prompt_for_lang cfg)) = [].
Proof.
  unfold engine_start.
  repeat match goal with
         | |- context [match ?x with _ => _ end] => destruct x eqn:?
         end; reflexivity.
Qed.

Lemma engine_start_inv (chunk_size_fn : nat -> Q) (audio_duration : Q)
    (atranscribe : nat -> Request -> Transcription)
    (get_punctuation_prompt_for_lang : string -> string) (cfg : Config)
    (ev0 : list Event) (st : LoopState) :
  (forall n req, result_wf (rq_end req - rq_start req) (atranscribe n req) = true) ->
  engine_start chunk_size_fn audio_duration atranscribe
    get_punctuation_prompt_for_lang cfg = (ev0, Ok st) ->
  loop_inv chunk_size_fn audio_duration st.
Proof.
  intros Hwf H. unfold engine_start in H. destruct_matches_in H;
    try discriminate; injection H as _ <-;
    (split; [reflexivity|]); simpl;
    rewrite ?result_wf_capitalize; apply Hwf.
Qed.

(** C2: monotonicity of the emitted times. *)
(** When chunk sizes are non-negative and every answer of the service lists
    its segments with slice-relative times in [[0, window duration]] that are
    non-decreasing (start, end, start, end, ...), the start and end values
    of all segments yielded by a stream, rebased onto the whole file, form
    one non-decreasing sequence, across chunk boundaries and including the
    final untrimmed chunk; in particular the starts alone and the ends alone
    are non-decreasing. *)
Theorem emitted_times_nondecreasing (chunk_size_fn : nat -> Q)
    (audio_duration : Q) (atranscribe : nat -> Request -> Transcription)
    (get_punctuation_prompt_for_lang : string -> string) (cfg : Config)
    (fuel : nat) :
  (forall i, 0 <= chunk_size_fn i) ->
  (forall n req, result_wf (rq_end req - rq_start req) (atranscribe n req) = true) ->
  let out := emitted_segments
               (fst (atranscribe_streaming chunk_size_fn audio_duration atranscribe
                       get_punctuation_prompt_for_lang cfg fuel)) in
  Sorted Qle (seg_times out) /\
  Sorted Qle (map seg_start out) /\ Sorted Qle (map seg_end out).
Proof.
  intros Hcs Hwf out.
  cut (Sorted Qle (seg_times out)).
  { intro H. split; [exact H|]. apply seg_times_sorted_projections. exact H. }
  unfold out, atranscribe_streaming.
  pose proof (engine_start_emits_nothing chunk_size_fn audio_duration atranscribe
                get_punctuation_prompt_for_lang cfg) as Hnil.
  pose proof (engine_start_inv chunk_size_fn audio_duration atranscribe
                get_punctuation_prompt_for_lang cfg) as Hinv.
  destruct (engine_start chunk_size_fn audio_duration atranscribe
              get_punctuation_prompt_for_lang cfg) as [ev0 [st|e]].
  - simpl in Hnil.
    destruct (run_loop_sorted chunk_size_fn audio_duration atranscribe Hcs Hwf
                fuel st (Hinv ev0 st Hwf eq_refl)) as [Hs _].
    destruct (run_loop chunk_size_fn audio_duration atranscribe fuel st)
      as [ev o]. simpl in *.
    unfold emitted_segments, yields in *. rewrite flat_map_app, flat_map_app.
    rewrite Hnil. exact Hs.
  - simpl in *. rewrite Hnil. constructor.
Qed.

(** ** Punctuation forcing on the first chunk *)




(** ** Configuration validation *)

(** C6 as the code has it. *)
(** An unsupported caller language fails with [UnsupportedLanguageError],
    and [force_punctuation] with a custom prompt fails with [ValueError]
    when the language is absent or supported (the language check comes
    first); in both cases the stream ends before any event: no probing,
    no slicing, no remote call. *)
Theorem config_validation_before_io (chunk_size_fn : nat -> Q)
    (audio_duration : Q) (atranscribe : nat -> Request -> Transcription)
    (get_punctuation_prompt_for_lang : string -> string) (cfg : Config)
    (fuel : nat) :
  let run := atranscribe_streaming chunk_size_fn audio_duration atranscribe
               get_punctuation_prompt_for_lang cfg fuel in
  (forall l, cfg_language cfg = Some l -> is_supported l = false ->
     run = ([], Failed UnsupportedLanguageError)) /\
  (cfg_force_punctuation cfg = true -> cfg_prompt cfg <> None ->
   (forall l, cfg_language cfg = Some l -> is_supported l = true) ->
     run = ([], Failed ValueError)).
Proof.
  intro run. unfold run, atranscribe_streaming, engine_start.
  destruct cfg as [lang force prompt]; simpl. split.
  - intros l -> Hs. rewrite Hs. reflexivity.
  - intros -> Hp Hl. destruct prompt as [p|]; [|congruence].
    destruct lang as [l|]; [rewrite (Hl l eq_refl)|]; reflexivity.
Qed.

(** C6 fails as stated: with an unsupported language, a custom prompt and
    [force_punctuation], the error is [UnsupportedLanguageError]. *)
Lemma config_validation_counterexample :
  atranscribe_streaming default_chunk_size_fn 120 ex_french_service ex_priming
    (mkConfig (Some "xx"%string) true (Some "my prompt"%string)) 3
  = ([], Failed UnsupportedLanguageError).
Proof. vm_compute. reflexivity. Qed.

(** ** The facade *)

(** C7: when the first chunk yields no segment, the first segment the
    caller receives keeps its leading space.  The facade runs the generator
    up to its first [yield] only. *)
Theorem facade_first_emitted_segment_unstripped :
  let '(ev, o) := atranscribe_streaming default_chunk_size_fn 60
                    ex_silence_service ex_priming (mkConfig None false None) 3 in
  until_first_yield ev =
    [EvProbe; EvTranscribe (mkRequest 0 30 None None);
     EvYield (mkTranscription "english" "" [])] /\
  atranscribe_streaming_simple ev o =
    FacadeOk "en" [mkSegment 30 30 32 " hello"] Finished.
Proof. vm_compute. split; reflexivity. Qed.

(** ** Language of the facade *)

Lemma name_to_lang_in_table (name l : string) :
  name_to_lang name = Some l -> In l SUPPORTED_LANGUAGES.
Proof.
  unfold name_to_lang. destruct (find _ _) as [[c n]|] eqn:Hf; simpl; [|discriminate].
  intro H. injection H as <-. apply find_some in Hf. destruct Hf as [Hin _].
  apply in_rev in Hin. unfold SUPPORTED_LANGUAGES.
  apply (in_map fst) in Hin. exact Hin.
Qed.

(** C10: the facade only returns languages of the table. *)
(** [get_lang_from_name] raises [UnsupportedLanguageError] on an empty name
    and on a name whose capitalized form is no display name of the table;
    when it returns, the name was non-empty, its capitalized form is a
    display name, and the result is a supported code; so any language the
    facade returns is supported. *)
Theorem facade_language_supported :
  (forall name, (name = EmptyString \/ name_to_lang (py_capitalize name) = None) ->
     get_lang_from_name name = Err UnsupportedLanguageError) /\
  (forall name l, get_lang_from_name name = Ok l ->
     name <> EmptyString /\ name_to_lang (py_capitalize name) = Some l /\
     In l SUPPORTED_LANGUAGES) /\
  (forall ev o l segs tail,
     atranscribe_streaming_simple ev o = FacadeOk l segs tail ->
     In l SUPPORTED_LANGUAGES).
Proof.
  assert (Hok : forall name l, get_lang_from_name name = Ok l ->
     name <> EmptyString /\ name_to_lang (py_capitalize name) = Some l /\
     In l SUPPORTED_LANGUAGES).
  { intros name l H. unfold get_lang_from_name in H.
    destruct (String.eqb name "") eqn:He; [discriminate|].
    destruct (name_to_lang (py_capitalize name)) as [l'|] eqn:Hn; [|discriminate].
    injection H as <-. split; [|split; [reflexivity|]].
    - intro Heq. subst. discriminate.
    - eapply name_to_lang_in_table. exact Hn. }
  split; [|split; [exact Hok|]].
  - intros name [->|Hn]; [reflexivity|].
    unfold get_lang_from_name. rewrite Hn.
    destruct (String.eqb name ""); reflexivity.
  - intros ev o l segs tail H. unfold atranscribe_streaming_simple in H.
    destruct (yields ev) as [|first rest]; [discriminate|].
    destruct (get_lang_from_name _) as [l'|e] eqn:Hl; [|discriminate].
    injection H as <- _ _. apply (Hok _ _ Hl).
Qed.

(** ** Duration probing *)

Lemma filter_nil_forallb {A} (f : A -> bool) (l : list A) :
  filter f l = [] <-> forallb (fun x => negb (f x)) l = true.
Proof.
  induction l as [|x l IH]; simpl; [split; auto|].
  destruct (f x); simpl; [split; discriminate|exact IH].
Qed.

(** C8 as the code has it. *)
(** [get_audio_duration_ffprobe] raises [NoAudioStreamsError] exactly when
    the probe metadata lists no audio stream; [get_audio_duration] catches
    it, like any error of that path, and falls back to decoding, so it
    never raises [NoAudioStreamsError]: it fails only with [RuntimeError]
    (no progress entry in ffmpeg's output) or [UnicodeDecodeError] (ffmpeg's
    stderr is not UTF-8). *)
Theorem get_audio_duration_no_audio_fallback (probe : ProbeOutcome)
    (err : DecodedStderr) :
  (get_audio_duration_ffprobe probe = Err NoAudioStreamsError <->
   exists streams format_duration,
     probe = ProbeOk streams format_duration /\
     forallb (fun s => negb (String.eqb (codec_type s) "audio")) streams = true) /\
  (forall e, get_audio_duration_ffprobe probe = Err e ->
     get_audio_duration probe err = get_audio_duration_decode err) /\
  get_audio_duration probe err <> Err NoAudioStreamsError /\
  (forall e, get_audio_duration probe err = Err e ->
     e = RuntimeError \/ e = UnicodeDecodeError).
Proof.
  split; [|split; [|split]].
  - destruct probe as [u|streams fd]; cbn [get_audio_duration_ffprobe].
    + split; [destruct u; discriminate|]. intros [? [? [H _]]]. discriminate.
    + pose proof (filter_nil_forallb
                    (fun s => String.eqb (codec_type s) "audio") streams) as Hfn.
      cbv beta in Hfn. split.
      * intro H. exists streams, fd. split; [reflexivity|]. apply Hfn.
        destruct (filter _ streams) as [|a l]; [reflexivity|].
        destruct (flat_map _ _) as [|d ds]; [destruct fd|]; discriminate.
      * intros [s' [f' [Heq Hn]]]. injection Heq as <- <-.
        apply Hfn in Hn. rewrite Hn. reflexivity.
  - intros e H. unfold get_audio_duration. rewrite H. reflexivity.
  - unfold get_audio_duration, get_audio_duration_decode.
    destruct (get_audio_duration_ffprobe probe); [discriminate|].
    destruct err as [t|]; [destruct (ffmpeg_last_time t)|]; discriminate.
  - intros e. unfold get_audio_duration, get_audio_duration_decode.
    destruct (get_audio_duration_ffprobe probe); [discriminate|].
    destruct err as [t|]; [destruct (ffmpeg_last_time t)|];
      intro H; inversion H; auto.
Qed.

(** C8 fails as stated: a video-only file whose decoding shows no progress
    line fails with [RuntimeError], not [NoAudioStreamsError]. *)
Lemma no_audio_stream_counterexample :
  get_audio_duration_ffprobe
    (ProbeOk [mkStreamInfo "video" (Some 10)] (Some 10)) = Err NoAudioStreamsError /\
  get_audio_duration
    (ProbeOk [mkStreamInfo "video" (Some 10)] (Some 10))
    (StderrText "Output #0, null, to 'pipe:':") = Err RuntimeError.
Proof. split; vm_compute; reflexivity. Qed.

(** ** Slicing *)

Lemma try_streams_table (run : StreamOption -> RunOutcome) :
  try_streams run stream_options [] =
  match run PlainStream with
  | RunOk out nothing_encoded => if nothing_encoded then Err AudioTrimError else Ok out
  | RunError o1 false => Err UnicodeDecodeError
  | RunError o1 true =>
      match run AresampleStream with
      | RunOk out nothing_encoded =>
          if nothing_encoded then Err AudioTrimError else Ok out
      | RunError o2 false => Err UnicodeDecodeError
      | RunError o2 true =>
          match o1, o2 with
          | [], [] => Err RuntimeError
          | _, _ => Ok (if Nat.ltb (List.length o1) (List.length o2) then o2 else o1)
          end
      end
  end.
Proof.
  unfold stream_options. cbn [try_streams].
  destruct (run PlainStream) as [out1 b1|o1 [|]]; [reflexivity| |reflexivity].
  cbn [negb].
  destruct (run AresampleStream) as [out2 b2|o2 [|]]; [reflexivity| |reflexivity].
  cbn [negb try_streams].
  destruct o1 as [|a l1], o2 as [|b l2]; cbn; try reflexivity.
  destruct (match List.length l2 with
            | 0%nat => false
            | S m' => Nat.leb (List.length l1) m' end); reflexivity.
Qed.

(** C9 as the code has it. *)
(** [trim_audio_and_convert] raises [AssertionError] for a negative start
    and for a window with [end <= start] (zero-duration ones included).
    For any other window it tries the two encodings in order: the first
    whose ffmpeg run succeeds gives the result, unless ffmpeg reports that
    nothing was encoded, which raises [AudioTrimError]; a failed run whose
    stderr is not valid UTF-8 raises [UnicodeDecodeError] (its warning
    decodes it); when both runs fail with UTF-8 stderr it returns the longer
    partial output (the first on a tie) and raises [RuntimeError] only when
    both outputs are empty; no other error occurs. *)
Theorem trim_audio_and_convert_outcomes (run : StreamOption -> RunOutcome)
    (start : Q) (end_ : option Q) :
  let res := trim_audio_and_convert run start end_ in
  (start < 0 -> res = Err AssertionError) /\
  (forall e, end_ = Some e -> e <= start -> res = Err AssertionError) /\
  (0 <= start -> (forall e, end_ = Some e -> start < e) ->
   res = try_streams run stream_options [] /\
   (forall out, run PlainStream = RunOk out false -> res = Ok out) /\
   (forall o1 out, run PlainStream = RunError o1 true ->
      run AresampleStream = RunOk out false -> res = Ok out) /\
   (res = Err RuntimeError <->
    run PlainStream = RunError [] true /\ run AresampleStream = RunError [] true) /\
   (res = Err AudioTrimError <->
    (exists out, run PlainStream = RunOk out true) \/
    (exists o out, run PlainStream = RunError o true /\
                   run AresampleStream = RunOk out true)) /\
   (res = Err UnicodeDecodeError <->
    (exists o, run PlainStream = RunError o false) \/
    (exists o1 o2, run PlainStream = RunError o1 true /\
                   run AresampleStream = RunError o2 false)) /\
   (forall o1 o2, run PlainStream = RunError o1 true ->
      run AresampleStream = RunError o2 true -> (o1 <> [] \/ o2 <> []) ->
      res = Ok (if Nat.ltb (List.length o1) (List.length o2) then o2 else o1)) /\
   (forall e, res = Err e ->
      e = RuntimeError \/ e = AudioTrimError \/ e = UnicodeDecodeError)).
Proof.
  intro res. unfold res, trim_audio_and_convert. split; [|split].
  - intro H. assert (Hq : Qleb 0 start = false) by (apply Qleb_false; exact H).
    rewrite Hq. reflexivity.
  - intros e -> H. destruct (Qleb 0 start); [|reflexivity]. simpl.
    assert (Hq : Qltb 0 (e - start) = false) by (apply Qltb_false; lra).
    rewrite Hq. reflexivity.
  - intros H0 He.
    assert (Hq : Qleb 0 start = true) by (apply Qleb_true; exact H0).
    rewrite Hq. cbn [negb].
    assert (Htry : match end_ with
                   | Some e => if negb (Qltb 0 (e - start)) then Err AssertionError
                               else try_streams run stream_options []
                   | None => try_streams run stream_options []
                   end = try_streams run stream_options []).
    { destruct end_ as [e|]; [|reflexivity].
      assert (Hl : Qltb 0 (e - start) = true)
        by (apply Qltb_true; specialize (He e eq_refl); lra).
      rewrite Hl. reflexivity. }
    rewrite Htry. split; [reflexivity|].
    rewrite try_streams_table.
    destruct (run PlainStream) as [out1 [|]|o1 [|]] eqn:H1;
      [| |destruct (run AresampleStream) as [out2 [|]|o2 [|]] eqn:H2|];
      try (destruct o1, o2);
      repeat split; intros;
      repeat match goal with
             | H : exists _, _ |- _ => destruct H
             | H : _ /\ _ |- _ => destruct H
             | H : _ \/ _ |- _ => destruct H
             | H : RunOk _ _ = RunOk _ _ |- _ => injection H; clear H; intros; subst
             | H : RunError _ _ = RunError _ _ |- _ => injection H; clear H; intros; subst
             | H : RunOk _ _ = RunError _ _ |- _ => discriminate H
             | H : RunError _ _ = RunOk _ _ |- _ => discriminate H
             | H : Err _ = Err _ |- _ => injection H as <-
             | H : Ok _ = Err _ |- _ => discriminate H
             | H : Err _ = Ok _ |- _ => discriminate H
             end;
      try discriminate; try congruence;
      try (left; eexists; reflexivity);
      try (right; do 2 eexists; split; reflexivity);
      auto.
Qed.

(** C9 fails as stated: a zero-duration window raises [AssertionError]
    although both encodings would give partial output. *)
Lemma zero_duration_window_counterexample :
  trim_audio_and_convert (fun _ => RunError [Byte.x01] true) 5 (Some 5)
  = Err AssertionError.
Proof. reflexivity. Qed.

(** ** Further properties of the code *)

(** ** Chunk policy and windows *)

Lemma inject_nat_le (a b : nat) :
  (a <= b)%nat -> inject_Z (Z.of_nat a) <= inject_Z (Z.of_nat b).
Proof. intro H. rewrite <- Zle_Qle. lia. Qed.

Lemma default_chunk_size_ge (i : nat) :
  30 <= default_chunk_size_fn i /\
  30 * inject_Z (Z.of_nat i) <= default_chunk_size_fn i.
Proof.
  unfold default_chunk_size_fn, OPENAI_WHISPER_MODEL_CHUNK_SIZE_SECONDS.
  destruct (PeanoNat.Nat.ltb_spec i 2) as [H|H].
  - assert (Hi : inject_Z (Z.of_nat i) <= 1)
      by (change 1 with (inject_Z (Z.of_nat 1)); apply inject_nat_le; lia).
    change (inject_Z (Z.of_nat 1)) with 1. split; lra.
  - assert (Hi : inject_Z (Z.of_nat 2) <= inject_Z (Z.of_nat i))
      by (apply inject_nat_le; lia).
    change (inject_Z (Z.of_nat 2)) with 2 in Hi. split; lra.
Qed.

Lemma default_chunk_size_mono (i j : nat) :
  (i <= j)%nat -> default_chunk_size_fn i <= default_chunk_size_fn j.
Proof.
  intro H. unfold default_chunk_size_fn, OPENAI_WHISPER_MODEL_CHUNK_SIZE_SECONDS.
  apply Qmult_le_l; [lra|]. apply inject_nat_le.
  destruct (PeanoNat.Nat.ltb_spec i 2), (PeanoNat.Nat.ltb_spec j 2); lia.
Qed.

(** With the default policy, a window of index [j >= 1] whose nominal size
    exceeds half the recording is stretched to the end of the file. *)
Lemma default_get_end_clamps (audio_duration start : Q) (j : nat) :
  (1 <= j)%nat -> 0 <= start ->
  audio_duration < 60 * inject_Z (Z.of_nat j) ->
  get_end default_chunk_size_fn audio_duration start j = audio_duration.
Proof.
  intros Hj Hs Had. unfold get_end.
  destruct (default_chunk_size_ge j) as [_ Hge].
  assert (Hl : Qltb (audio_duration - (start + default_chunk_size_fn j))
                    (default_chunk_size_fn j) = true) by (apply Qltb_true; lra).
  rewrite Hl. reflexivity.
Qed.

Lemma get_end_bounds (chunk_size_fn : nat -> Q) (audio_duration start : Q) (i : nat) :
  0 < chunk_size_fn i -> start < audio_duration ->
  start < get_end chunk_size_fn audio_duration start i /\
  get_end chunk_size_fn audio_duration start i <= audio_duration.
Proof.
  intros Hc Hs. unfold get_end.
  destruct (Qltb _ _) eqn:Hl; [split; lra|].
  apply Qltb_false in Hl. split; lra.
Qed.

Lemma get_end_below (chunk_size_fn : nat -> Q) (audio_duration start : Q) (i : nat) :
  0 <= chunk_size_fn i ->
  get_end chunk_size_fn audio_duration start i < audio_duration ->
  get_end chunk_size_fn audio_duration start i = start + chunk_size_fn i.
Proof.
  intros Hc. unfold get_end. destruct (Qltb _ _); [intro H; lra|reflexivity].
Qed.

Lemma py_min_ge (a b x : Q) : x <= a -> x <= b -> x <= py_min a b.
Proof. intros. unfold py_min. destruct (Qltb _ _); assumption. Qed.

Lemma last_in_list {A} (l : list A) (d : A) : l <> [] -> In (last l d) l.
Proof.
  induction l as [|a l IH]; [congruence|]. intros _.
  destruct l as [|b l]; [left; reflexivity|].
  right. apply IH. discriminate.
Qed.

Lemma in_firstn {A} (m : nat) (l : list A) (x : A) : In x (firstn m l) -> In x l.
Proof.
  intro H. rewrite <- (firstn_skipn m l). apply in_or_app. left. exact H.
Qed.

Lemma core_step_chunk_index (chunk_size_fn : nat -> Q) (audio_duration : Q)
    (atranscribe : nat -> Request -> Transcription) (st : LoopState)
    (y : Transcription) (req : Request) (st' : LoopState) :
  core_step chunk_size_fn audio_duration atranscribe st = StepNext y req st' ->
  ls_chunk_index st' = S (ls_chunk_index st) /\
  rq_prompt req = ls_prompt st' /\
  ls_prompt st' = Some (prompt_or_empty (ls_prompt st) ++ r_text y)%string.
Proof.
  intro H. unfold core_step in H.
  destruct (Qleb audio_duration (ls_end st)); [discriminate|].
  destruct (boundary_trim _ _) as [[c r']|e]; [|discriminate].
  injection H as <- <- <-. simpl. auto.
Qed.

(** One pass of the loop moves the cursor forward, never past the window. *)
Lemma core_step_window (chunk_size_fn : nat -> Q) (audio_duration : Q)
    (atranscribe : nat -> Request -> Transcription) (st : LoopState)
    (y : Transcription) (req : Request) (st' : LoopState) :
  (forall i, 0 <= chunk_size_fn i) ->
  (forall n req, seg_ends_nonneg (atranscribe n req)) ->
  window_inv chunk_size_fn audio_duration st ->
  core_step chunk_size_fn audio_duration atranscribe st = StepNext y req st' ->
  window_inv chunk_size_fn audio_duration st' /\
  ls_start st <= ls_start st' /\ ls_start st' <= ls_end st /\
  ls_end st < audio_duration /\
  ls_chunk_index st' = S (ls_chunk_index st) /\
  rq_start req = ls_start st' /\ rq_end req = ls_end st'.
Proof.
  intros Hcs Hnn [Hs0 [Hend Hsegs]] Hstep.
  destruct (core_step_next _ _ _ _ _ _ _ Hstep)
    as [Hnt [Htrim [Hend' [Hr' [Hqs Hqe]]]]].
  destruct (core_step_chunk_index _ _ _ _ _ _ _ Hstep) as [Hci _].
  assert (Hse : ls_start st <= ls_end st).
  { rewrite Hend in Hnt. rewrite Hend, (get_end_below _ _ _ _ (Hcs _) Hnt).
    specialize (Hcs (ls_chunk_index st)). lra. }
  assert (Hc : ls_start st <= ls_start st' /\ ls_start st' <= ls_end st).
  { destruct (boundary_trim_cases _ _ _ _ Htrim) as [[-> _]|[m [Hm [Hne ->]]]].
    - split; [exact Hse|apply Qle_refl].
    - split; [|apply py_min_le_r].
      apply py_min_ge; [|exact Hse].
      pose proof (last_in_list _ dummy_segment Hne) as Hin.
      rewrite Hm in Hin at 2. apply in_firstn in Hin.
      simpl in Hin. apply in_map_iff in Hin. destruct Hin as [x [Hx Hxin]].
      rewrite <- Hx. simpl. unfold seg_ends_nonneg in Hsegs.
      rewrite Forall_forall in Hsegs. specialize (Hsegs x Hxin). lra. }
  split; [|split; [apply Hc|split; [apply Hc|auto]]].
  split; [lra|]. split; [exact Hend'|]. rewrite Hr'. apply Hnn.
Qed.

Lemma transcribe_requests_app (a b : list Event) :
  transcribe_requests (a ++ b) = transcribe_requests a ++ transcribe_requests b.
Proof. unfold transcribe_requests. apply flat_map_app. Qed.

Lemma capitalize_seg_ends (r : Transcription) :
  seg_ends_nonneg (capitalize_result r) <-> seg_ends_nonneg r.
Proof.
  unfold seg_ends_nonneg. simpl. destruct (r_segments r) as [|s rest]; [tauto|].
  split; intro H; inversion H; subst; constructor; assumption.
Qed.

Lemma get_lang_from_name_err (name : string) (e : PyErr) :
  get_lang_from_name name = Err e -> e = UnsupportedLanguageError.
Proof.
  unfold get_lang_from_name. destruct (String.eqb _ _); [congruence|].
  destruct (name_to_lang _); congruence.
Qed.

(** The part before the loop asks only for the first window, at most twice,
    and hands the loop the state of that window. *)
Lemma engine_start_shape (chunk_size_fn : nat -> Q) (audio_duration : Q)
    (atranscribe : nat -> Request -> Transcription)
    (get_punctuation_prompt_for_lang : string -> string) (cfg : Config) :
  let '(ev0, pre) := engine_start chunk_size_fn audio_duration atranscribe
                       get_punctuation_prompt_for_lang cfg in
  (List.length (transcribe_requests ev0) <= 2)%nat /\
  Forall (fun q => rq_start q = 0 /\
                   rq_end q = get_end chunk_size_fn audio_duration 0 0)
    (transcribe_requests ev0) /\
  match pre with
  | Ok st =>
      ls_start st = 0 /\
      ls_end st = get_end chunk_size_fn audio_duration 0 0 /\
      ls_chunk_index st = 0%nat /\
      exists n q, ls_r st = atranscribe n q \/
                  ls_r st = capitalize_result (atranscribe n q)
  | Err e => e = UnsupportedLanguageError \/ e = ValueError
  end.
Proof.
  destruct cfg as [[lang|] [|] [pr|]]; unfold engine_start;
    cbn [cfg_language cfg_force_punctuation cfg_prompt negb andb];
    repeat (match goal with
            | |- context [is_supported ?l] => destruct (is_supported l)
            | |- context [get_lang_from_name ?n] =>
                let H := fresh "Hl" in destruct (get_lang_from_name n) eqn:H
            | |- context [is_punctuation_present ?t] =>
                destruct (is_punctuation_present t)
            end; simpl).
  all: split; [simpl; lia|]; split; [repeat constructor; reflexivity|].
  all: try (repeat split; do 2 eexists; first [left; reflexivity|right; reflexivity]).
  all: try (first [left; reflexivity|right; reflexivity]).
  all: left; eapply get_lang_from_name_err; eassumption.
Qed.

Lemma engine_start_unforced_one_request (chunk_size_fn : nat -> Q)
    (audio_duration : Q) (atranscribe : nat -> Request -> Transcription)
    (get_punctuation_prompt_for_lang : string -> string) (cfg : Config) :
  cfg_force_punctuation cfg = false ->
  (List.length (transcribe_requests
     (fst (engine_start chunk_size_fn audio_duration atranscribe
             get_punctuation_prompt_for_lang cfg))) <= 1)%nat.
Proof.
  destruct cfg as [[lang|] [|] [pr|]]; cbn [cfg_force_punctuation];
    intro Hf; try discriminate; unfold engine_start;
    cbn [cfg_language cfg_force_punctuation cfg_prompt negb andb];
    repeat (match goal with
            | |- context [is_supported ?l] => destruct (is_supported l)
            | |- context [get_lang_from_name ?n] => destruct (get_lang_from_name n)
            end; simpl); lia.
Qed.

Lemma transcribe_requests_step (y : Transcription) (q : Request) (ev : list Event) :
  transcribe_requests (EvYield y :: EvTranscribe q :: ev) = q :: transcribe_requests ev.
Proof. reflexivity. Qed.

Lemma run_loop_windows (chunk_size_fn : nat -> Q) (audio_duration : Q)
    (atranscribe : nat -> Request -> Transcription) :
  (forall i, 0 < chunk_size_fn i) ->
  (forall n req, seg_ends_nonneg (atranscribe n req)) ->
  forall fuel st, window_inv chunk_size_fn audio_duration st ->
  let reqs := transcribe_requests
                (fst (run_loop chunk_size_fn audio_duration atranscribe fuel st)) in
  Forall (fun q => ls_start st <= rq_start q /\ rq_start q < rq_end q /\
                   rq_end q <= audio_duration) reqs /\
  Sorted Qle (map rq_start reqs).
Proof.
  intros Hcs Hnn.
  assert (Hcs0 : forall i, 0 <= chunk_size_fn i)
    by (intro i; specialize (Hcs i); lra).
  intro fuel. induction fuel as [|fuel IH]; intros st Hinv reqs; unfold reqs;
    clear reqs; cbn [run_loop];
    destruct (core_step chunk_size_fn audio_duration atranscribe st)
      as [r|err|y req st'] eqn:Hstep; cbn [fst]; try (split; constructor).
  destruct (core_step_window _ _ _ _ _ _ _ Hcs0 Hnn Hinv Hstep)
    as [Hinv' [Hle [Hle' [Hnt [_ [Hqs Hqe]]]]]].
  destruct (run_loop chunk_size_fn audio_duration atranscribe fuel st')
    as [ev o] eqn:Hrun. cbn [fst].
  specialize (IH st' Hinv'). rewrite Hrun in IH. cbn [fst] in IH.
  destruct IH as [Hall Hsort].
  rewrite transcribe_requests_step.
  destruct Hinv' as [_ [Hend' _]].
  assert (Hreq : rq_start req < rq_end req /\ rq_end req <= audio_duration).
  { rewrite Hqs, Hqe, Hend'. apply get_end_bounds; [apply Hcs|lra]. }
  split.
  - constructor; [split; [rewrite Hqs; exact Hle|exact Hreq]|].
    eapply Forall_impl; [|exact Hall]. simpl. intros q [Hq1 Hq2].
    split; [lra|exact Hq2].
  - simpl. constructor; [exact Hsort|].
    destruct (transcribe_requests ev) as [|q rest]; constructor.
    inversion Hall as [|? ? [Hq _] _]; subst. rewrite Hqs. exact Hq.
Qed.

Lemma sorted_const_zero (l : list Q) : Forall (fun x => x = 0) l -> Sorted Qle l.
Proof.
  induction l as [|a l IH]; intro H; constructor.
  - apply IH. inversion H; assumption.
  - inversion H as [|? ? Ha Hl]; subst. destruct l; constructor.
    inversion Hl; subst. apply Qle_refl.
Qed.

Lemma engine_start_window (chunk_size_fn : nat -> Q) (audio_duration : Q)
    (atranscribe : nat -> Request -> Transcription)
    (get_punctuation_prompt_for_lang : string -> string) (cfg : Config)
    (ev0 : list Event) (st : LoopState) :
  (forall n req, seg_ends_nonneg (atranscribe n req)) ->
  engine_start chunk_size_fn audio_duration atranscribe
    get_punctuation_prompt_for_lang cfg = (ev0, Ok st) ->
  window_inv chunk_size_fn audio_duration st /\ ls_start st = 0 /\
  ls_chunk_index st = 0%nat.
Proof.
  intros Hnn H.
  pose proof (engine_start_shape chunk_size_fn audio_duration atranscribe
                get_punctuation_prompt_for_lang cfg) as Hs.
  rewrite H in Hs. destruct Hs as [_ [_ [H0 [Hend [Hci [n [q Hr]]]]]]].
  split; [|split; assumption].
  split; [rewrite H0; apply Qle_refl|]. split; [rewrite H0, Hci; exact Hend|].
  destruct Hr as [-> | ->]; [|apply capitalize_seg_ends]; apply Hnn.
Qed.

(** X1: every window the engine asks for is well formed. *)
Theorem requested_windows_valid (chunk_size_fn : nat -> Q) (audio_duration : Q)
    (atranscribe : nat -> Request -> Transcription)
    (get_punctuation_prompt_for_lang : string -> string) (cfg : Config)
    (fuel : nat) :
  (forall i, 0 < chunk_size_fn i) ->
  0 < audio_duration ->
  (forall n req, seg_ends_nonneg (atranscribe n req)) ->
  let reqs := transcribe_requests
                (fst (atranscribe_streaming chunk_size_fn audio_duration atranscribe
                        get_punctuation_prompt_for_lang cfg fuel)) in
  Forall (fun q => 0 <= rq_start q /\ rq_start q < rq_end q /\
                   rq_end q <= audio_duration) reqs /\
  Sorted Qle (map rq_start reqs).
Proof.
  intros Hcs Had Hnn reqs. unfold reqs, atranscribe_streaming. clear reqs.
  pose proof (engine_start_shape chunk_size_fn audio_duration atranscribe
                get_punctuation_prompt_for_lang cfg) as Hs.
  destruct (get_end_bounds chunk_size_fn audio_duration 0 0 (Hcs 0%nat) Had)
    as [Hb1 Hb2].
  destruct (engine_start chunk_size_fn audio_duration atranscribe
              get_punctuation_prompt_for_lang cfg) as [ev0 pre] eqn:Hstart.
  destruct Hs as [_ [Hreq0 Hpre]].
  assert (H0 : Forall (fun q => 0 <= rq_start q /\ rq_start q < rq_end q /\
                                rq_end q <= audio_duration) (transcribe_requests ev0)).
  { eapply Forall_impl; [|exact Hreq0]. simpl. intros q [-> ->].
    split; [apply Qle_refl|split; assumption]. }
  assert (Hs0 : Sorted Qle (map rq_start (transcribe_requests ev0))).
  { apply sorted_const_zero. apply Forall_map.
    eapply Forall_impl; [|exact Hreq0]. simpl. intros q [-> _]. reflexivity. }
  destruct pre as [st|e]; [|simpl; split; assumption].
  destruct (engine_start_window _ _ _ _ _ _ _ Hnn Hstart) as [Hinv [Hst0 _]].
  destruct (run_loop_windows _ _ _ Hcs Hnn fuel st Hinv) as [Hall Hsort].
  destruct (run_loop chunk_size_fn audio_duration atranscribe fuel st) as [ev o].
  simpl in *. rewrite transcribe_requests_app, map_app. split.
  - apply Forall_app. split; [exact H0|].
    eapply Forall_impl; [|exact Hall]. simpl. intros q [Hq1 Hq2].
    rewrite Hst0 in Hq1. split; assumption.
  - apply sorted_app; [exact Hs0|exact Hsort|].
    intros u v Hu Hv. apply in_map_iff in Hu, Hv.
    destruct Hu as [qu [<- Hqu]]. destruct Hv as [qv [<- Hqv]].
    rewrite Forall_forall in Hreq0, Hall.
    destruct (Hreq0 qu Hqu) as [-> _]. destruct (Hall qv Hqv) as [Hq _].
    rewrite Hst0 in Hq. exact Hq.
Qed.

Lemma run_loop_bounded (audio_duration : Q)
    (atranscribe : nat -> Request -> Transcription) :
  (forall n req, seg_ends_nonneg (atranscribe n req)) ->
  forall fuel st k,
  window_inv default_chunk_size_fn audio_duration st ->
  (audio_duration <= ls_end st \/
   ((1 <= k)%nat /\
    audio_duration < 60 * inject_Z (Z.of_nat (ls_chunk_index st + k)))) ->
  let '(ev, o) := run_loop default_chunk_size_fn audio_duration atranscribe fuel st in
  (List.length (transcribe_requests ev) <= k)%nat /\
  ((k <= fuel)%nat -> o <> Suspended).
Proof.
  intros Hnn.
  assert (Hcs0 : forall i, 0 <= default_chunk_size_fn i)
    by (intro i; destruct (default_chunk_size_ge i); lra).
  intro fuel. induction fuel as [|fuel IH]; intros st k Hinv Hk; cbn [run_loop];
    destruct (core_step default_chunk_size_fn audio_duration atranscribe st)
      as [r|err|y req st'] eqn:Hstep;
    try (split; [simpl; lia|discriminate]).
  - destruct (core_step_window _ _ _ _ _ _ _ Hcs0 Hnn Hinv Hstep)
      as [_ [_ [_ [Hnt _]]]].
    destruct Hk as [Hk|[Hk _]]; [lra|]. split; [simpl; lia|]. intro; lia.
  - destruct (core_step_window _ _ _ _ _ _ _ Hcs0 Hnn Hinv Hstep)
      as [Hinv' [_ [Hle' [Hnt [Hci _]]]]].
    destruct Hk as [Hk|[Hk1 Hk2]]; [lra|].
    assert (Hk' : audio_duration <= ls_end st' \/
                  ((1 <= k - 1)%nat /\
                   audio_duration <
                   60 * inject_Z (Z.of_nat (ls_chunk_index st' + (k - 1))))).
    { destruct (PeanoNat.Nat.eq_dec k 1) as [->|Hne].
      - left. destruct Hinv' as [Hs' [Hend' _]]. rewrite Hend', Hci.
        rewrite default_get_end_clamps; [apply Qle_refl|lia|exact Hs'|].
        replace (S (ls_chunk_index st)) with (ls_chunk_index st + 1)%nat by lia.
        exact Hk2.
      - right. split; [lia|].
        replace (ls_chunk_index st' + (k - 1))%nat
          with (ls_chunk_index st + k)%nat by lia.
        exact Hk2. }
    specialize (IH st' (k - 1)%nat Hinv' Hk').
    destruct (run_loop default_chunk_size_fn audio_duration atranscribe fuel st')
      as [ev o]. destruct IH as [Hlen Hsusp].
    rewrite transcribe_requests_step. simpl. split; [lia|].
    intro Hf. apply Hsusp. lia.
Qed.

(** X2: with the default chunk policy a recording shorter than [60 N]
    seconds costs at most [N + 2] requests, however far the consumer reads,
    as long as the service reports no negative segment end; and once the
    consumer has let the loop make [N] requests after the first window
    (it has pulled [N + 1] elements), the stream has ended. *)
Theorem default_policy_bounded_requests (audio_duration : Q)
    (atranscribe : nat -> Request -> Transcription)
    (get_punctuation_prompt_for_lang : string -> string) (cfg : Config)
    (fuel N : nat) :
  (forall n req, seg_ends_nonneg (atranscribe n req)) ->
  (1 <= N)%nat ->
  audio_duration < 60 * inject_Z (Z.of_nat N) ->
  let '(ev, o) := atranscribe_streaming default_chunk_size_fn audio_duration
                    atranscribe get_punctuation_prompt_for_lang cfg fuel in
  (List.length (transcribe_requests ev) <= N + 2)%nat /\
  ((N <= fuel)%nat -> o <> Suspended).
Proof.
  intros Hnn HN Had. unfold atranscribe_streaming.
  pose proof (engine_start_shape default_chunk_size_fn audio_duration atranscribe
                get_punctuation_prompt_for_lang cfg) as Hs.
  destruct (engine_start default_chunk_size_fn audio_duration atranscribe
              get_punctuation_prompt_for_lang cfg) as [ev0 pre] eqn:Hstart.
  destruct Hs as [Hlen0 _].
  destruct pre as [st|e]; [|split; [lia|discriminate]].
  destruct (engine_start_window _ _ _ _ _ _ _ Hnn Hstart) as [Hinv [_ Hci]].
  assert (Hk : audio_duration <
               60 * inject_Z (Z.of_nat (ls_chunk_index st + N)))
    by (rewrite Hci; exact Had).
  pose proof (run_loop_bounded audio_duration atranscribe Hnn fuel st N Hinv
                (or_intror (conj HN Hk))) as Hb.
  destruct (run_loop default_chunk_size_fn audio_duration atranscribe fuel st)
    as [ev o]. destruct Hb as [Hlen Hsusp].
  rewrite transcribe_requests_app, length_app. split; [lia|exact Hsusp].
Qed.

Lemma boundary_trim_ok (end_ : Q) (r : Transcription) :
  exists c y, boundary_trim end_ r = Ok (c, y).
Proof.
  destruct (Compare_dec.le_lt_dec (List.length (r_segments r)) 1) as [Hs|Hb].
  - rewrite boundary_trim_small by exact Hs. eauto.
  - destruct (boundary_trim_multi end_ r ltac:(simpl; lia))
      as [k [_ [_ [_ ->]]]]. eauto.
Qed.

Lemma core_step_not_fail (chunk_size_fn : nat -> Q) (audio_duration : Q)
    (atranscribe : nat -> Request -> Transcription) (st : LoopState) (e : PyErr) :
  core_step chunk_size_fn audio_duration atranscribe st <> StepFail e.
Proof.
  unfold core_step. destruct (Qleb _ _); [discriminate|].
  destruct (boundary_trim_ok (ls_end st) (rebase (ls_start st) (ls_r st)))
    as [c [y ->]]. discriminate.
Qed.

Lemma run_loop_not_failed (chunk_size_fn : nat -> Q) (audio_duration : Q)
    (atranscribe : nat -> Request -> Transcription) :
  forall fuel st e,
  snd (run_loop chunk_size_fn audio_duration atranscribe fuel st) <> Failed e.
Proof.
  intro fuel. induction fuel as [|fuel IH]; intros st e; cbn [run_loop];
    destruct (core_step chunk_size_fn audio_duration atranscribe st)
      as [r|err|y req st'] eqn:Hstep; try discriminate;
    try (exfalso; eapply core_step_not_fail; exact Hstep).
  specialize (IH st' e).
  destruct (run_loop chunk_size_fn audio_duration atranscribe fuel st') as [ev o].
  exact IH.
Qed.

Lemma engine_start_yields_nothing (chunk_size_fn : nat -> Q) (audio_duration : Q)
    (atranscribe : nat -> Request -> Transcription)
    (get_punctuation_prompt_for_lang : string -> string) (cfg : Config) :
  yields (fst (engine_start chunk_size_fn audio_duration atranscribe
                 get_punctuation_prompt_for_lang cfg)) = [].
Proof.
  unfold engine_start.
  repeat match goal with
         | |- context [match ?x with _ => _ end] => destruct x eqn:?
         end; reflexivity.
Qed.

(** X3: for a caller's prompt that is absent or a string (not an explicit
    [prompt=None], which [Config] does not cover), with the duration known
    and every request answered, a stream fails only before its first yield,
    and only with [UnsupportedLanguageError] or [ValueError]. *)
Theorem stream_failures_precede_output (chunk_size_fn : nat -> Q)
    (audio_duration : Q) (atranscribe : nat -> Request -> Transcription)
    (get_punctuation_prompt_for_lang : string -> string) (cfg : Config)
    (fuel : nat) (e : PyErr) :
  snd (atranscribe_streaming chunk_size_fn audio_duration atranscribe
         get_punctuation_prompt_for_lang cfg fuel) = Failed e ->
  (e = UnsupportedLanguageError \/ e = ValueError) /\
  yields (fst (atranscribe_streaming chunk_size_fn audio_duration atranscribe
                 get_punctuation_prompt_for_lang cfg fuel)) = [].
Proof.
  unfold atranscribe_streaming.
  pose proof (engine_start_shape chunk_size_fn audio_duration atranscribe
                get_punctuation_prompt_for_lang cfg) as Hs.
  pose proof (engine_start_yields_nothing chunk_size_fn audio_duration atranscribe
                get_punctuation_prompt_for_lang cfg) as Hy.
  destruct (engine_start chunk_size_fn audio_duration atranscribe
              get_punctuation_prompt_for_lang cfg) as [ev0 pre].
  destruct Hs as [_ [_ Hpre]]. simpl in Hy.
  destruct pre as [st|err].
  - pose proof (run_loop_not_failed chunk_size_fn audio_duration atranscribe
                  fuel st e) as Hn.
    destruct (run_loop chunk_size_fn audio_duration atranscribe fuel st) as [ev o].
    simpl in *. intro H. contradiction.
  - simpl. intro H. injection H as <-. split; assumption.
Qed.

Lemma string_append_assoc (a b c : string) :
  ((a ++ b) ++ c = a ++ (b ++ c))%string.
Proof. induction a as [|x a IH]; simpl; [reflexivity|]. rewrite IH. reflexivity. Qed.

Lemma string_append_empty (a : string) : (a ++ EmptyString)%string = a.
Proof. induction a as [|x a IH]; simpl; [reflexivity|]. rewrite IH. reflexivity. Qed.

Lemma yields_step (y : Transcription) (q : Request) (ev : list Event) :
  yields (EvYield y :: EvTranscribe q :: ev) = y :: yields ev.
Proof. reflexivity. Qed.

(** X4: the prompt of the [k]-th request of the loop is the prompt the loop
    started with, followed by the texts of the first [k+1] yielded results. *)
Theorem loop_prompt_accumulates (chunk_size_fn : nat -> Q) (audio_duration : Q)
    (atranscribe : nat -> Request -> Transcription) (fuel : nat)
    (st : LoopState) (k : nat) (req : Request) :
  let ev := fst (run_loop chunk_size_fn audio_duration atranscribe fuel st) in
  nth_error (transcribe_requests ev) k = Some req ->
  rq_prompt req =
    Some (prompt_or_empty (ls_prompt st) ++ texts_of (firstn (S k) (yields ev)))%string.
Proof.
  revert st k. induction fuel as [|fuel IH]; intros st k ev; unfold ev; clear ev;
    cbn [run_loop];
    destruct (core_step chunk_size_fn audio_duration atranscribe st)
      as [r|err|y q st'] eqn:Hstep; cbn [fst];
    try (intro H; destruct k; discriminate).
  destruct (core_step_chunk_index _ _ _ _ _ _ _ Hstep) as [_ [Hq Hp]].
  specialize (IH st').
  destruct (run_loop chunk_size_fn audio_duration atranscribe fuel st') as [ev o].
  cbn [fst] in *. rewrite transcribe_requests_step, yields_step.
  destruct k as [|k]; simpl.
  - intro H. injection H as <-. rewrite Hq, Hp, string_append_empty. reflexivity.
  - intro H. rewrite (IH k H), Hp. simpl. rewrite string_append_assoc. reflexivity.
Qed.

Lemma yields_app (a b : list Event) : yields (a ++ b) = yields a ++ yields b.
Proof. unfold yields. apply flat_map_app. Qed.

Lemma stream_emitted_sorted (chunk_size_fn : nat -> Q)
    (audio_duration : Q) (atranscribe : nat -> Request -> Transcription)
    (get_punctuation_prompt_for_lang : string -> string) (cfg : Config)
    (fuel : nat) :
  (forall i, 0 <= chunk_size_fn i) ->
  (forall n req, result_wf (rq_end req - rq_start req) (atranscribe n req) = true) ->
  Sorted Qle (seg_times (emitted_segments
    (fst (atranscribe_streaming chunk_size_fn audio_duration atranscribe
            get_punctuation_prompt_for_lang cfg fuel)))).
Proof.
  intros Hcs Hwf. unfold atranscribe_streaming.
  pose proof (engine_start_emits_nothing chunk_size_fn audio_duration atranscribe
                get_punctuation_prompt_for_lang cfg) as Hnil.
  pose proof (engine_start_inv chunk_size_fn audio_duration atranscribe
                get_punctuation_prompt_for_lang cfg) as Hinv.
  destruct (engine_start chunk_size_fn audio_duration atranscribe
              get_punctuation_prompt_for_lang cfg) as [ev0 [st|e]].
  - simpl in Hnil.
    destruct (run_loop_sorted chunk_size_fn audio_duration atranscribe Hcs Hwf
                fuel st (Hinv ev0 st Hwf eq_refl)) as [Hs _].
    destruct (run_loop chunk_size_fn audio_duration atranscribe fuel st)
      as [ev o]. simpl in *.
    unfold emitted_segments, yields in *. rewrite flat_map_app, flat_map_app.
    rewrite Hnil. exact Hs.
  - simpl in *. rewrite Hnil. constructor.
Qed.

Lemma facade_seg_times (ev : list Event) (o : Outcome) (l : string)
    (segs : list Segment) (tail : Outcome) :
  atranscribe_streaming_simple ev o = FacadeOk l segs tail ->
  seg_times segs = seg_times (emitted_segments ev).
Proof.
  intro H. unfold atranscribe_streaming_simple in H. unfold emitted_segments.
  destruct (yields ev) as [|y rest]; [discriminate|].
  destruct (get_lang_from_name _); [|discriminate].
  injection H as _ <- _. simpl.
  destruct (r_segments y) as [|s ss]; reflexivity.
Qed.

(** X5: under the conditions of C2, the segments [atranscribe_streaming_simple]
    hands out are in time order: their start and end times, in turn, never
    decrease, across chunk boundaries and after the first segment's text is
    stripped. *)
Theorem facade_segments_time_ordered (chunk_size_fn : nat -> Q)
    (audio_duration : Q) (atranscribe : nat -> Request -> Transcription)
    (get_punctuation_prompt_for_lang : string -> string) (cfg : Config)
    (fuel : nat) (l : string) (segs : list Segment) (tail : Outcome) :
  (forall i, 0 <= chunk_size_fn i) ->
  (forall n req, result_wf (rq_end req - rq_start req) (atranscribe n req) = true) ->
  let run := atranscribe_streaming chunk_size_fn audio_duration atranscribe
               get_punctuation_prompt_for_lang cfg fuel in
  atranscribe_streaming_simple (fst run) (snd run) = FacadeOk l segs tail ->
  Sorted Qle (seg_times segs) /\
  Sorted Qle (map seg_start segs) /\ Sorted Qle (map seg_end segs).
Proof.
  intros Hcs Hwf run H.
  assert (Hs : Sorted Qle (seg_times segs)).
  { rewrite (facade_seg_times _ _ _ _ _ H).
    exact (stream_emitted_sorted chunk_size_fn audio_duration atranscribe
             get_punctuation_prompt_for_lang cfg fuel Hcs Hwf). }
  split; [exact Hs|]. apply seg_times_sorted_projections. exact Hs.
Qed.

(** X6: a recording shorter than 60 seconds is sent in one window covering
    the whole file, at most twice, and only once without punctuation
    forcing; the stream ends after a single yield, however far the consumer
    reads. *)
Theorem short_audio_single_window (audio_duration : Q)
    (atranscribe : nat -> Request -> Transcription)
    (get_punctuation_prompt_for_lang : string -> string) (cfg : Config)
    (fuel : nat) :
  audio_duration < 60 ->
  let '(ev, o) := atranscribe_streaming default_chunk_size_fn audio_duration
                    atranscribe get_punctuation_prompt_for_lang cfg fuel in
  Forall (fun q => rq_start q = 0 /\ rq_end q = audio_duration)
    (transcribe_requests ev) /\
  (List.length (transcribe_requests ev) <= 2)%nat /\
  (cfg_force_punctuation cfg = false ->
   (List.length (transcribe_requests ev) <= 1)%nat) /\
  o <> Suspended /\
  (o = Finished -> List.length (yields ev) = 1%nat).
Proof.
  intro Had.
  pose proof (engine_start_unforced_one_request default_chunk_size_fn audio_duration
                atranscribe get_punctuation_prompt_for_lang cfg) as Hun.
  assert (Hend : get_end default_chunk_size_fn audio_duration 0 0 = audio_duration).
  { unfold get_end.
    assert (Hl : Qltb (audio_duration - (0 + default_chunk_size_fn 0))
                      (default_chunk_size_fn 0) = true)
      by (apply Qltb_true;
          assert (Hc : default_chunk_size_fn 0 = 30) by reflexivity;
          rewrite Hc; lra).
    rewrite Hl. reflexivity. }
  unfold atranscribe_streaming.
  pose proof (engine_start_shape default_chunk_size_fn audio_duration atranscribe
                get_punctuation_prompt_for_lang cfg) as Hs.
  pose proof (engine_start_yields_nothing default_chunk_size_fn audio_duration
                atranscribe get_punctuation_prompt_for_lang cfg) as Hy.
  destruct (engine_start default_chunk_size_fn audio_duration atranscribe
              get_punctuation_prompt_for_lang cfg) as [ev0 pre].
  destruct Hs as [Hlen0 [Hreq0 Hpre]]. simpl in Hy, Hun. rewrite Hend in Hreq0.
  destruct pre as [st|e];
    [|split; [exact Hreq0|split; [exact Hlen0|split; [exact Hun|split; discriminate]]]].
  destruct Hpre as [_ [Hst _]]. rewrite Hend in Hst.
  assert (Hdone : core_step default_chunk_size_fn audio_duration atranscribe st
                  = StepDone (rebase (ls_start st) (ls_r st))).
  { unfold core_step. rewrite Hst.
    assert (Hq : Qleb audio_duration audio_duration = true)
      by (apply Qleb_true; apply Qle_refl).
    rewrite Hq. reflexivity. }
  assert (Hrun : run_loop default_chunk_size_fn audio_duration atranscribe fuel st
                 = ([EvYield (rebase (ls_start st) (ls_r st))], Finished))
    by (destruct fuel; cbn [run_loop]; rewrite Hdone; reflexivity).
  rewrite Hrun. split; [|split; [|split; [|split; [discriminate|]]]].
  - rewrite transcribe_requests_app. apply Forall_app. split; [exact Hreq0|].
    constructor.
  - rewrite transcribe_requests_app, length_app. simpl. lia.
  - intro Hf. rewrite transcribe_requests_app, length_app. simpl.
    specialize (Hun Hf). lia.
  - intros _. rewrite yields_app, Hy. reflexivity.
Qed.

(** ** Chunk policy *)

(** X7: default chunk sizes are at least 30 seconds and never shrink. *)
Theorem default_chunk_sizes_grow :
  forall i j, 30 <= default_chunk_size_fn i /\
              ((i <= j)%nat -> default_chunk_size_fn i <= default_chunk_size_fn j).
Proof.
  intros i j. split; [apply default_chunk_size_ge|apply default_chunk_size_mono].
Qed.

(** ** Languages *)

Lemma supported_in (l : string) :
  is_supported l = true <-> In l SUPPORTED_LANGUAGES.
Proof.
  unfold is_supported. rewrite existsb_exists. split.
  - intros [x [Hin Heq]]. apply String.eqb_eq in Heq. subst. exact Hin.
  - intro H. exists l. split; [exact H|apply String.eqb_refl].
Qed.

(** X8: [get_lang_name] and [get_lang_from_name] are inverse on the table. *)
Theorem lang_name_round_trip (l name : string) :
  (is_supported l = true ->
   exists n, get_lang_name l = Ok n /\ get_lang_from_name n = Ok l) /\
  (get_lang_from_name name = Ok l -> get_lang_name l = Ok (py_capitalize name)).
Proof.
  split.
  - rewrite supported_in. intro Hin.
    unfold SUPPORTED_LANGUAGES, _WHISPER_LANGUAGES in Hin. simpl in Hin.
    repeat destruct Hin as [<-|Hin]; try (eexists; split; reflexivity).
    destruct Hin.
  - intro H. unfold get_lang_from_name in H.
    destruct (String.eqb name ""); [discriminate|].
    destruct (name_to_lang (py_capitalize name)) as [l'|] eqn:Hn; [|discriminate].
    injection H as <-. unfold name_to_lang in Hn.
    destruct (find _ _) as [[c n]|] eqn:Hf; [|discriminate].
    simpl in Hn. injection Hn as <-.
    apply find_some in Hf. destruct Hf as [Hin Heq].
    apply String.eqb_eq in Heq. rewrite <- Heq.
    apply in_rev in Hin. unfold _WHISPER_LANGUAGES in Hin. simpl in Hin.
    repeat destruct Hin as [Hin|Hin]; try (injection Hin as <- <-; reflexivity).
    destruct Hin.
Qed.

Lemma char_upper_lower (c : ascii) : char_upper (char_lower c) = char_upper c.
Proof. destruct c as [[] [] [] [] [] [] [] []]; reflexivity. Qed.

Lemma char_upper_upper (c : ascii) : char_upper (char_upper c) = char_upper c.
Proof. destruct c as [[] [] [] [] [] [] [] []]; reflexivity. Qed.

Lemma char_lower_lower (c : ascii) : char_lower (char_lower c) = char_lower c.
Proof. destruct c as [[] [] [] [] [] [] [] []]; reflexivity. Qed.

Lemma char_lower_upper (c : ascii) : char_lower (char_upper c) = char_lower c.
Proof. destruct c as [[] [] [] [] [] [] [] []]; reflexivity. Qed.


Lemma str_map_map (f g : ascii -> ascii) (s : string) :
  str_map g (str_map f s) = str_map (fun c => g (f c)) s.
Proof. induction s as [|c s IH]; simpl; [reflexivity|]. rewrite IH. reflexivity. Qed.

Lemma str_map_ext (f g : ascii -> ascii) (s : string) :
  (forall c, f c = g c) -> str_map f s = str_map g s.
Proof.
  intro H. induction s as [|c s IH]; simpl; [reflexivity|]. rewrite H, IH. reflexivity.
Qed.

(** X9: language names are matched case-insensitively: lower-casing or
    upper-casing a name (ASCII letters) does not change the lookup. *)
Theorem lang_lookup_case_insensitive (name : string) :
  get_lang_from_name (str_map char_lower name) = get_lang_from_name name /\
  get_lang_from_name (str_map char_upper name) = get_lang_from_name name.
Proof.
  destruct name as [|c r]; [split; reflexivity|].
  unfold get_lang_from_name. simpl str_map. cbn [String.eqb].
  unfold py_capitalize. rewrite !str_map_map, char_upper_lower, char_upper_upper.
  rewrite (str_map_ext (fun x => char_lower (char_lower x)) char_lower)
    by apply char_lower_lower.
  rewrite (str_map_ext (fun x => char_lower (char_upper x)) char_lower)
    by apply char_lower_upper.
  split; reflexivity.
Qed.

Lemma punctuation_prompt_of_supported (l : string) :
  In l SUPPORTED_LANGUAGES -> exists p, get_punctuation_prompt_for_lang l = Ok p.
Proof.
  intro Hin. unfold SUPPORTED_LANGUAGES, _WHISPER_LANGUAGES in Hin. simpl in Hin.
  repeat destruct Hin as [<-|Hin]; try (eexists; reflexivity).
  destruct Hin.
Qed.

(** X10: every language the engine can work with has a priming phrase. *)
Theorem punctuation_prompt_total (l name : string) :
  (is_supported l = true -> exists p, get_punctuation_prompt_for_lang l = Ok p) /\
  (get_lang_from_name name = Ok l -> exists p, get_punctuation_prompt_for_lang l = Ok p).
Proof.
  split.
  - rewrite supported_in. apply punctuation_prompt_of_supported.
  - intro H. apply punctuation_prompt_of_supported.
    unfold get_lang_from_name in H. destruct (String.eqb name ""); [discriminate|].
    destruct (name_to_lang (py_capitalize name)) as [l'|] eqn:Hn; [|discriminate].
    injection H as <-. exact (name_to_lang_in_table _ _ Hn).
Qed.

(** ** Capitalization *)



(** ** Duration probing *)

Lemma max_list_spec (x : Q) (l : list Q) :
  In (max_list x l) (x :: l) /\ Forall (fun y => y <= max_list x l) (x :: l).
Proof.
  unfold max_list. revert x. induction l as [|y l IH]; intro x; simpl.
  - split; [left; reflexivity|]. constructor; [apply Qle_refl|constructor].
  - destruct (Qltb x y) eqn:Hxy.
    + apply Qltb_true in Hxy. destruct (IH y) as [Hin Hall].
      split; [destruct Hin; auto|].
      inversion Hall as [|? ? Hy Hl]; subst.
      constructor; [lra|]. constructor; assumption.
    + apply Qltb_false in Hxy. destruct (IH x) as [Hin Hall].
      split; [destruct Hin as [H|H]; [left; exact H|right; right; exact H]|].
      inversion Hall as [|? ? Hx Hl]; subst.
      constructor; [exact Hx|]. constructor; [lra|exact Hl].
Qed.

Lemma audio_durations_filter (streams : list StreamInfo) :
  flat_map (fun s => match stream_duration s with Some d => [d] | None => [] end)
    (filter (fun s => String.eqb (codec_type s) "audio") streams)
  = audio_stream_durations streams.
Proof.
  unfold audio_stream_durations.
  induction streams as [|s streams IH]; simpl; [reflexivity|].
  destruct (String.eqb (codec_type s) "audio"); simpl; rewrite IH; reflexivity.
Qed.

(** X12: when some audio stream reports a duration, ffprobe's answer is the
    largest of those durations; other streams and the container duration
    play no part. *)
Theorem ffprobe_duration_is_max (streams : list StreamInfo) (format_duration : option Q) :
  audio_stream_durations streams <> [] ->
  exists d, get_audio_duration_ffprobe (ProbeOk streams format_duration) = Ok d /\
    In d (audio_stream_durations streams) /\
    Forall (fun x => x <= d) (audio_stream_durations streams).
Proof.
  intro Hne. unfold get_audio_duration_ffprobe.
  rewrite <- audio_durations_filter in Hne |- *.
  destruct (filter _ streams) as [|s rest] eqn:Hf; [simpl in Hne; congruence|].
  rewrite <- Hf in Hne |- *.
  destruct (flat_map _ (filter _ streams)) as [|d ds]; [congruence|].
  exists (max_list d ds). split; [reflexivity|]. apply max_list_spec.
Qed.

(** ** Parsing ffmpeg's progress output *)

Lemma span_digits_length (s : string) :
  let '(d, r) := span_digits s in
  (String.length d + String.length r = String.length s)%nat.
Proof.
  induction s as [|c s IH]; simpl; [reflexivity|].
  destruct (is_digit c); [|reflexivity].
  destruct (span_digits s) as [d r]. simpl. lia.
Qed.

Lemma match_digits_length (s d r : string) :
  match_digits s = Some (d, r) -> (String.length r < String.length s)%nat.
Proof.
  unfold match_digits. pose proof (span_digits_length s) as H.
  destruct (span_digits s) as [[|c d'] r']; [discriminate|].
  intro E. injection E as <- <-. simpl in H. lia.
Qed.

Lemma match_literal_length (w s r : string) :
  match_literal w s = Some r ->
  (String.length r + String.length w = String.length s)%nat.
Proof.
  revert s. induction w as [|c w IH]; intros s H; simpl in H.
  - injection H as <-. simpl. lia.
  - destruct s as [|d s]; [discriminate|].
    destruct (Ascii.eqb c d); [|discriminate].
    apply IH in H. simpl. lia.
Qed.

Lemma match_time_at_length (s : string) g (rest : string) :
  match_time_at s = Some (g, rest) -> (String.length rest < String.length s)%nat.
Proof.
  unfold match_time_at.
  destruct (match_literal "time=" s) as [s1|] eqn:E1; [|discriminate].
  apply match_literal_length in E1. simpl in E1.
  destruct (match_digits s1) as [[h s2]|] eqn:E2; [|discriminate].
  apply match_digits_length in E2.
  destruct (match_literal ":" s2) as [s3|] eqn:E3; [|discriminate].
  apply match_literal_length in E3.
  destruct (match_digits s3) as [[mi s4]|] eqn:E4; [|discriminate].
  apply match_digits_length in E4.
  destruct (match_literal ":" s4) as [s5|] eqn:E5; [|discriminate].
  apply match_literal_length in E5.
  destruct (match_digits s5) as [[si s6]|] eqn:E6; [|discriminate].
  apply match_digits_length in E6.
  destruct (match_literal "." s6) as [s7|] eqn:E7; [|discriminate].
  apply match_literal_length in E7.
  destruct (match_digits s7) as [[sf s8]|] eqn:E8; [|discriminate].
  apply match_digits_length in E8.
  intro H. injection H as _ <-. simpl in *. lia.
Qed.

Lemma findall_time_fuel (n m : nat) (s : string) :
  (String.length s < n)%nat -> (String.length s < m)%nat ->
  findall_time n s = findall_time m s.
Proof.
  revert m s. induction n as [|n IH]; intros m s Hn Hm; [lia|].
  destruct m as [|m]; [lia|]. simpl.
  destruct s as [|c r]; [reflexivity|].
  destruct (match_time_at (String c r)) as [[g rest]|] eqn:E.
  - apply match_time_at_length in E. f_equal. apply IH; simpl in *; lia.
  - apply IH; simpl in *; lia.
Qed.


Lemma span_digits_app (s t : string) :
  starts_t t ->
  span_digits (s ++ t) = let '(d, r) := span_digits s in (d, (r ++ t)%string).
Proof.
  intros [t' ->]. induction s as [|c s IH]; simpl; [reflexivity|].
  destruct (is_digit c); [|reflexivity].
  rewrite IH. destruct (span_digits s). reflexivity.
Qed.

Lemma match_digits_app (s t : string) :
  starts_t t ->
  match_digits (s ++ t) =
  option_map (fun '(d, r) => (d, (r ++ t)%string)) (match_digits s).
Proof.
  intro Ht. unfold match_digits. rewrite (span_digits_app s t Ht).
  destruct (span_digits s) as [[|c d] r]; reflexivity.
Qed.

Lemma match_sep_app (c : ascii) (s t : string) :
  c <> "t"%char -> starts_t t ->
  match_literal (String c "") (s ++ t) =
  option_map (fun r => (r ++ t)%string) (match_literal (String c "") s).
Proof.
  intros Hc [t' ->]. destruct s as [|d s]; simpl.
  - destruct (Ascii.eqb c "t") eqn:E; [|reflexivity].
    apply Ascii.eqb_eq in E. contradiction.
  - destruct (Ascii.eqb c d); reflexivity.
Qed.

Lemma match_header_app (p t : string) :
  p <> EmptyString -> starts_t t ->
  match_literal "time=" (p ++ t) =
  option_map (fun r => (r ++ t)%string) (match_literal "time=" p).
Proof.
  intros Hp [t' ->].
  destruct p as [|c1 [|c2 [|c3 [|c4 [|c5 p]]]]]; [congruence|..];
    cbn [match_literal String.append option_map];
    repeat (match goal with
            | |- context [Ascii.eqb ?a ?b] =>
                first [ is_var b; destruct (Ascii.eqb a b)
                      | let v := eval vm_compute in (Ascii.eqb a b) in
                        change (Ascii.eqb a b) with v ]
            end; cbn [match_literal option_map]); reflexivity.
Qed.

Lemma match_time_at_app (p t : string) :
  p <> EmptyString -> starts_t t ->
  match_time_at (p ++ t) =
  option_map (fun '(g, r) => (g, (r ++ t)%string)) (match_time_at p).
Proof.
  intros Hp Ht. unfold match_time_at.
  rewrite (match_header_app p t Hp Ht).
  destruct (match_literal "time=" p) as [s1|]; [|reflexivity]. cbn [option_map].
  rewrite (match_digits_app s1 t Ht).
  destruct (match_digits s1) as [[h s2]|]; [|reflexivity]. cbn [option_map].
  rewrite (match_sep_app ":" s2 t ltac:(discriminate) Ht).
  destruct (match_literal ":" s2) as [s3|]; [|reflexivity]. cbn [option_map].
  rewrite (match_digits_app s3 t Ht).
  destruct (match_digits s3) as [[mi s4]|]; [|reflexivity]. cbn [option_map].
  rewrite (match_sep_app ":" s4 t ltac:(discriminate) Ht).
  destruct (match_literal ":" s4) as [s5|]; [|reflexivity]. cbn [option_map].
  rewrite (match_digits_app s5 t Ht).
  destruct (match_digits s5) as [[si s6]|]; [|reflexivity]. cbn [option_map].
  rewrite (match_sep_app "." s6 t ltac:(discriminate) Ht).
  destruct (match_literal "." s6) as [s7|]; [|reflexivity]. cbn [option_map].
  rewrite (match_digits_app s7 t Ht).
  destruct (match_digits s7) as [[sf s8]|]; reflexivity.
Qed.

Lemma string_length_app (a b : string) :
  String.length (a ++ b) = (String.length a + String.length b)%nat.
Proof. induction a as [|c a IH]; simpl; [reflexivity|]. rewrite IH. reflexivity. Qed.

Lemma findall_time_app (n : nat) (p t : string) :
  starts_t t -> (String.length (p ++ t) < n)%nat ->
  findall_time n (p ++ t) = findall_time n p ++ findall_time n t.
Proof.
  revert p. induction n as [|n IH]; intros p Ht Hn; [lia|].
  rewrite string_length_app in Hn.
  destruct p as [|c p']; [reflexivity|].
  change (String c p' ++ t)%string with (String c (p' ++ t)).
  cbn [findall_time].
  change (String c (p' ++ t)) with (String c p' ++ t)%string.
  rewrite (match_time_at_app (String c p') t ltac:(discriminate) Ht).
  assert (Hfuel : findall_time n t = findall_time (S n) t)
    by (apply findall_time_fuel; simpl in Hn; lia).
  destruct (match_time_at (String c p')) as [[g r]|] eqn:E; cbn [option_map].
  - apply match_time_at_length in E. simpl in E, Hn.
    rewrite IH by (exact Ht || (rewrite string_length_app; lia)).
    rewrite Hfuel. reflexivity.
  - simpl in Hn. rewrite IH by (exact Ht || (rewrite string_length_app; lia)).
    rewrite Hfuel. reflexivity.
Qed.

Lemma digit_string_span (d r : string) :
  forallb is_digit (list_ascii_of_string d) = true -> no_leading_digit r = true ->
  span_digits (d ++ r) = (d, r).
Proof.
  intros Hd Hr. induction d as [|c d IH].
  - destruct r as [|c r]; [reflexivity|]. cbn [no_leading_digit] in Hr.
    cbn [String.append span_digits].
    destruct (is_digit c); [discriminate|reflexivity].
  - cbn [list_ascii_of_string forallb] in Hd.
    apply andb_true_iff in Hd. destruct Hd as [Hc Hd].
    cbn [String.append span_digits]. rewrite Hc, (IH Hd). reflexivity.
Qed.

Lemma digit_string_match (d r : string) :
  digit_string d = true -> no_leading_digit r = true ->
  match_digits (d ++ r) = Some (d, r).
Proof.
  intros Hd Hr. unfold digit_string in Hd. apply andb_true_iff in Hd.
  destruct Hd as [Hne Hd]. unfold match_digits. rewrite (digit_string_span d r Hd Hr).
  destruct d; [discriminate|reflexivity].
Qed.


Lemma string_app_assoc (a b c : string) : ((a ++ b) ++ c = a ++ (b ++ c))%string.
Proof. induction a as [|x a IH]; simpl; [reflexivity|]. rewrite IH. reflexivity. Qed.

Lemma match_progress_entry (h m s f q : string) :
  digit_string h = true -> digit_string m = true -> digit_string s = true ->
  digit_string f = true -> no_leading_digit q = true ->
  match_time_at (progress_entry h m s f ++ q) = Some ((h, m, (s ++ "." ++ f)%string), q).
Proof.
  intros Hh Hm Hs Hf Hq. unfold progress_entry. rewrite !string_app_assoc.
  unfold match_time_at. cbn [match_literal String.append]. rewrite !Ascii.eqb_refl.
  rewrite (digit_string_match h) by (exact Hh || reflexivity).
  cbn [match_literal]. rewrite Ascii.eqb_refl.
  rewrite (digit_string_match m) by (exact Hm || reflexivity).
  cbn [match_literal]. rewrite Ascii.eqb_refl.
  rewrite (digit_string_match s) by (exact Hs || reflexivity).
  cbn [match_literal]. rewrite Ascii.eqb_refl.
  rewrite (digit_string_match f) by (exact Hf || exact Hq). reflexivity.
Qed.

Lemma findall_time_S (n : nat) (c : ascii) (r : string) :
  findall_time (S n) (String c r) =
  match match_time_at (String c r) with
  | Some (g, rest) => g :: findall_time n rest
  | None => findall_time n r
  end.
Proof. reflexivity. Qed.

Lemma decimal_value_digits (s f : string) :
  digit_string s = true -> digit_string f = true ->
  decimal_value (s ++ "." ++ f) =
  inject_Z (digits_value s) +
  inject_Z (digits_value f) / inject_Z (10 ^ Z.of_nat (String.length f)).
Proof.
  intros Hs Hf. unfold decimal_value. unfold digit_string in Hs.
  apply andb_true_iff in Hs. destruct Hs as [_ Hs].
  rewrite (digit_string_span s ("." ++ f) Hs eq_refl). reflexivity.
Qed.

(** X13: the duration found by decoding is the last [time=H:M:S.F] entry of
    ffmpeg's output: whatever comes before it, and however many earlier
    entries there are, as long as no entry follows it. *)
Lemma decode_uses_last_progress (p h m s f q : string) :
  digit_string h = true -> digit_string m = true -> digit_string s = true ->
  digit_string f = true -> no_leading_digit q = true -> re_findall_time q = [] ->
  get_audio_duration_decode (StderrText (p ++ progress_entry h m s f ++ q)) =
  Ok (inject_Z (digits_value h * 3600 + digits_value m * 60) +
      (inject_Z (digits_value s) +
       inject_Z (digits_value f) / inject_Z (10 ^ Z.of_nat (String.length f)))).
Proof.
  intros Hh Hm Hs Hf Hq Hnone.
  unfold get_audio_duration_decode, ffmpeg_last_time, re_findall_time.
  rewrite findall_time_app;
    [| unfold progress_entry; eexists; reflexivity | lia].
  set (n := String.length (p ++ progress_entry h m s f ++ q)).
  assert (Hlen : (String.length q < n)%nat).
  { unfold n. rewrite !string_length_app. unfold progress_entry. simpl. lia. }
  destruct n as [|n']; [lia|].
  assert (Hentry : exists r, (progress_entry h m s f ++ q)%string = String "t" r)
    by (unfold progress_entry; eexists; reflexivity).
  destruct Hentry as [r Hr].
  assert (Hstep : findall_time (S (S n')) (progress_entry h m s f ++ q) =
                  (h, m, (s ++ "." ++ f)%string) :: findall_time (S n') q).
  { rewrite Hr, findall_time_S, <- Hr.
    rewrite (match_progress_entry h m s f q Hh Hm Hs Hf Hq). reflexivity. }
  rewrite Hstep.
  rewrite (findall_time_fuel (S n') (S (String.length q)) q) by lia.
  fold (re_findall_time q). rewrite Hnone.
  rewrite rev_app_distr. cbn [rev app].
  rewrite (decimal_value_digits s f Hs Hf). reflexivity.
Qed.

(** ** Witnesses *)

Lemma boundary_trim_decision_witness :
  ls_end ex_loop_state < 65 /\
  exists y req st',
    core_step default_chunk_size_fn 65 ex_silence_service ex_loop_state
    = StepNext y req st' /\ ls_start st' <= ls_end ex_loop_state.
Proof.
  assert (H : ls_end ex_loop_state < 65) by (vm_compute; reflexivity).
  split; [exact H|].
  destruct (boundary_trim_decision default_chunk_size_fn 65 ex_silence_service
              ex_priming ex_loop_state H) as (y & req & st' & Hs & _ & Hmulti).
  destruct (Hmulti ltac:(vm_compute; lia)) as (k & _ & _ & _ & _ & _ & Hle & _).
  exists y, req, st'. split; [exact Hs|exact Hle].
Defined.

Lemma emitted_times_nondecreasing_witness :
  (forall i, 0 <= default_chunk_size_fn i) /\
  (forall n req, result_wf (rq_end req - rq_start req) (ex_wf_service n req) = true) /\
  Sorted Qle (seg_times (emitted_segments
    (fst (atranscribe_streaming default_chunk_size_fn 65 ex_wf_service ex_priming
            ex_plain_cfg 5)))).
Proof.
  assert (Hcs : forall i, 0 <= default_chunk_size_fn i).
  { intro i. unfold default_chunk_size_fn, OPENAI_WHISPER_MODEL_CHUNK_SIZE_SECONDS.
    apply Qmult_le_0_compat; [lra|].
    change 0 with (inject_Z 0). rewrite <- Zle_Qle. lia. }
  assert (Hwf : forall n req,
             result_wf (rq_end req - rq_start req) (ex_wf_service n req) = true).
  { intros n req. unfold ex_wf_service.
    destruct (Qleb 2 (rq_end req - rq_start req)) eqn:E; [|reflexivity].
    apply Qleb_true in E.
    unfold result_wf. cbn -[Qleb].
    repeat rewrite (proj2 (Qleb_true _ _)) by lra. reflexivity. }
  split; [exact Hcs|]. split; [exact Hwf|].
  exact (proj1 (emitted_times_nondecreasing default_chunk_size_fn 65 ex_wf_service
                  ex_priming ex_plain_cfg 5 Hcs Hwf)).
Defined.


Lemma prompt_grows_by_retained_text_witness :
  match core_step default_chunk_size_fn 65 ex_silence_service ex_loop_state with
  | StepNext y req st' =>
      ls_prompt st' = Some (" earlier" ++ r_text y)%string
  | _ => False
  end.
Proof.
  destruct (core_step default_chunk_size_fn 65 ex_silence_service ex_loop_state)
    as [r|e|y req st'] eqn:E.
  - vm_compute in E. discriminate.
  - vm_compute in E. discriminate.
  - exact (proj1 (prompt_grows_by_retained_text default_chunk_size_fn 65
                    ex_silence_service ex_loop_state y req st' E)).
Defined.

Lemma requested_windows_valid_witness :
  (forall i, 0 < default_chunk_size_fn i) /\ 0 < 65 /\
  (forall n req, seg_ends_nonneg (ex_silence_service n req)) /\
  Sorted Qle (map rq_start (transcribe_requests
    (fst (atranscribe_streaming default_chunk_size_fn 65 ex_silence_service
            ex_priming ex_plain_cfg 3)))).
Proof.
  assert (Hcs : forall i, 0 < default_chunk_size_fn i).
  { intro i. destruct (default_chunk_size_ge i) as [H _]. lra. }
  assert (Hnn : forall n req, seg_ends_nonneg (ex_silence_service n req)).
  { intros [|n] req; unfold seg_ends_nonneg; simpl; repeat constructor;
      unfold Qle; simpl; lia. }
  assert (Had : 0 < 65) by lra.
  split; [exact Hcs|]. split; [exact Had|]. split; [exact Hnn|].
  exact (proj2 (requested_windows_valid default_chunk_size_fn 65 ex_silence_service
                  ex_priming ex_plain_cfg 3 Hcs Had Hnn)).
Defined.

Lemma default_policy_bounded_requests_witness :
  (1 <= 2)%nat /\ 65 < 60 * inject_Z (Z.of_nat 2) /\
  (List.length (transcribe_requests
     (fst (atranscribe_streaming default_chunk_size_fn 65 ex_silence_service
             ex_priming ex_plain_cfg 3))) <= 4)%nat.
Proof.
  assert (Hnn : forall n req, seg_ends_nonneg (ex_silence_service n req)).
  { intros [|n] req; unfold seg_ends_nonneg; simpl; repeat constructor;
      unfold Qle; simpl; lia. }
  assert (H1 : (1 <= 2)%nat) by lia.
  assert (H2 : 65 < 60 * inject_Z (Z.of_nat 2)) by (vm_compute; reflexivity).
  split; [exact H1|]. split; [exact H2|].
  pose proof (default_policy_bounded_requests 65 ex_silence_service ex_priming
                ex_plain_cfg 3 2 Hnn H1 H2) as H.
  destruct (atranscribe_streaming default_chunk_size_fn 65 ex_silence_service
              ex_priming ex_plain_cfg 3) as [ev o].
  exact (proj1 H).
Defined.

Lemma stream_failures_precede_output_witness :
  snd (atranscribe_streaming default_chunk_size_fn 65 ex_silence_service ex_priming
         ex_unknown_cfg 3) = Failed UnsupportedLanguageError /\
  yields (fst (atranscribe_streaming default_chunk_size_fn 65 ex_silence_service
                 ex_priming ex_unknown_cfg 3)) = [].
Proof.
  assert (H : snd (atranscribe_streaming default_chunk_size_fn 65 ex_silence_service
                     ex_priming ex_unknown_cfg 3) = Failed UnsupportedLanguageError)
    by (vm_compute; reflexivity).
  split; [exact H|].
  exact (proj2 (stream_failures_precede_output default_chunk_size_fn 65
                  ex_silence_service ex_priming ex_unknown_cfg 3 _ H)).
Defined.

Lemma loop_prompt_accumulates_witness :
  match nth_error (transcribe_requests
          (fst (run_loop default_chunk_size_fn 65 ex_silence_service 3 ex_loop_state))) 0
  with
  | Some req => rq_prompt req =
      Some (" earlier" ++ texts_of (firstn 1 (yields
        (fst (run_loop default_chunk_size_fn 65 ex_silence_service 3 ex_loop_state)))))%string
  | None => False
  end.
Proof.
  destruct (nth_error (transcribe_requests
          (fst (run_loop default_chunk_size_fn 65 ex_silence_service 3 ex_loop_state))) 0)
    as [req|] eqn:E.
  - exact (loop_prompt_accumulates default_chunk_size_fn 65 ex_silence_service 3
             ex_loop_state 0 req E).
  - vm_compute in E. discriminate.
Defined.

Lemma facade_segments_time_ordered_witness :
  (forall i, 0 <= default_chunk_size_fn i) /\
  (forall n req, result_wf (rq_end req - rq_start req) (ex_wf_service n req) = true) /\
  let run := atranscribe_streaming default_chunk_size_fn 65 ex_wf_service ex_priming
               ex_plain_cfg 5 in
  match atranscribe_streaming_simple (fst run) (snd run) with
  | FacadeOk _ segs _ => Sorted Qle (map seg_start segs)
  | FacadeErr _ => False
  end.
Proof.
  assert (Hcs : forall i, 0 <= default_chunk_size_fn i).
  { intro i. destruct (default_chunk_size_ge i) as [H _]. lra. }
  assert (Hwf : forall n req,
             result_wf (rq_end req - rq_start req) (ex_wf_service n req) = true).
  { intros n req. unfold ex_wf_service.
    destruct (Qleb 2 (rq_end req - rq_start req)) eqn:E; [|reflexivity].
    apply Qleb_true in E.
    unfold result_wf. cbn -[Qleb].
    repeat rewrite (proj2 (Qleb_true _ _)) by lra. reflexivity. }
  split; [exact Hcs|]. split; [exact Hwf|]. intro run.
  destruct (atranscribe_streaming_simple (fst run) (snd run)) as [e|l segs tail] eqn:F.
  - unfold run in F. vm_compute in F. discriminate.
  - exact (proj1 (proj2 (facade_segments_time_ordered default_chunk_size_fn 65
             ex_wf_service ex_priming ex_plain_cfg 5 l segs tail Hcs Hwf F))).
Defined.

Lemma short_audio_single_window_witness :
  45 < 60 /\
  Forall (fun q => rq_start q = 0 /\ rq_end q = 45)
    (transcribe_requests (fst (atranscribe_streaming default_chunk_size_fn 45
       ex_french_service ex_priming ex_force_cfg 3))).
Proof.
  assert (H : 45 < 60) by (vm_compute; reflexivity).
  split; [exact H|].
  pose proof (short_audio_single_window 45 ex_french_service ex_priming ex_force_cfg 3 H)
    as Hs.
  destruct (atranscribe_streaming default_chunk_size_fn 45 ex_french_service
              ex_priming ex_force_cfg 3) as [ev o].
  exact (proj1 Hs).
Defined.


Lemma ffprobe_duration_is_max_witness :
  audio_stream_durations ex_streams <> [] /\
  exists d, get_audio_duration_ffprobe (ProbeOk ex_streams (Some 95)) = Ok d /\
    Forall (fun x => x <= d) (audio_stream_durations ex_streams).
Proof.
  assert (H : audio_stream_durations ex_streams <> []) by (vm_compute; discriminate).
  split; [exact H|].
  destruct (ffprobe_duration_is_max ex_streams (Some 95) H) as (d & Hd & _ & Hmax).
  exists d. split; [exact Hd|exact Hmax].
Defined.

Lemma decode_uses_last_progress_witness :
  get_audio_duration_decode (StderrText
    ("size=N/A time=00:00:10.00 bitrate=N/A " ++
     progress_entry "00" "01" "02" "50" ++ " speed=900x")%string) =
  Ok (inject_Z (digits_value "00" * 3600 + digits_value "01" * 60) +
      (inject_Z (digits_value "02") +
       inject_Z (digits_value "50") / inject_Z (10 ^ Z.of_nat (String.length "50")))).
Proof.
  apply (decode_uses_last_progress "size=N/A time=00:00:10.00 bitrate=N/A "
           "00" "01" "02" "50" " speed=900x");
    vm_compute; reflexivity.
Defined.
